(** * GameBox session server: registries, event handlers and idle reaper

    A shallow embedding of [backend-server.js]: the [players] and [rooms]
    maps, the socket event handlers that mutate them, the outbound events
    they emit, and the periodic clean-up of inactive players.

    The saved-game catalogue ([games], the [save-game] and [get-games]
    handlers) and the HTTP routes [/stats] and [/rooms] never write
    [players] or [rooms]: they are modelled on top of the session state, in
    a server state of their own. *)

From Stdlib Require Import QArith Lqa ZArith String.
From stdpp Require Import gmap strings list fin_maps pretty.

Local Open Scope Z_scope.

(* ===================================================================== *)
(** ** JavaScript values seen by the handlers *)
(* ===================================================================== *)

(** A JavaScript number.  [Math.min] and [Math.max] only compare their
    arguments and return one of them, so a finite double is represented
    exactly by the rational it denotes. *)
Inductive JsNumber : Type :=
| JsNaN
| JsInfinity
| JsNegInfinity
| JsFinite (q : Q).

(** A value found in a payload field.  The conversion of a string or of an
    array to a number is done by the language runtime, not by this program:
    such a value carries the number the runtime gives it ([Number("abc")] is
    [NaN], [Number("12")] is [12]).  [JsObject] is a plain object, whose
    conversion is always [NaN].  [JsObjectWithToString] is an object that
    has a key [toString] of its own: in a payload the value under that key
    is never a function, and converting the object to a number or to a
    string throws a [TypeError]. *)
#[warnings="-register-all"]
Inductive JsValue : Type :=
| JsUndefined
| JsNull
| JsBool (b : bool)
| JsNum (n : JsNumber)
| JsStr (s : string) (num : JsNumber)
| JsArr (items : list JsValue) (num : JsNumber)
| JsObject
| JsObjectWithToString.

(** Whether converting a value to a primitive throws: an object with its
    own [toString], or an array with such an element (its conversion joins
    the strings of its elements). *)
Fixpoint conversion_throws (v : JsValue) : bool :=
  match v with
  | JsObjectWithToString => true
  | JsArr items _ => existsb conversion_throws items
  | _ => false
  end.

Definition ToBoolean (v : JsValue) : bool :=
  match v with
  | JsUndefined | JsNull => false
  | JsBool b => b
  | JsNum JsNaN => false
  | JsNum (JsFinite q) => negb (Qeq_bool q 0)
  | JsNum _ => true
  | JsStr s _ => negb (String.eqb s "")
  | JsArr _ _ | JsObject | JsObjectWithToString => true
  end.

(** The conversion to a number; [None] when it throws. *)
Definition ToNumber (v : JsValue) : option JsNumber :=
  if conversion_throws v then None
  else Some match v with
            | JsUndefined => JsNaN
            | JsNull => JsFinite 0
            | JsBool b => if b then JsFinite 1 else JsFinite 0
            | JsNum n => n
            | JsStr _ num => num
            | JsArr _ num => num
            | JsObject | JsObjectWithToString => JsNaN
            end.

(** [a || b] *)
Definition js_or (a b : JsValue) : JsValue :=
  if ToBoolean a then a else b.

(** [a <= b] on numbers other than [NaN]. *)
Definition js_leb (a b : JsNumber) : bool :=
  match a, b with
  | JsNegInfinity, _ => true
  | _, JsInfinity => true
  | JsFinite p, JsFinite q => Qle_bool p q
  | _, _ => false
  end.

(** [Math.min(a, b)] and [Math.max(a, b)]: [NaN] if either argument is. *)
Definition Math_min (a b : JsNumber) : JsNumber :=
  match a, b with
  | JsNaN, _ | _, JsNaN => JsNaN
  | _, _ => if js_leb a b then a else b
  end.

Definition Math_max (a b : JsNumber) : JsNumber :=
  match a, b with
  | JsNaN, _ | _, JsNaN => JsNaN
  | _, _ => if js_leb a b then b else a
  end.

(** [Math.max(0, Math.min(hi, v || 0))], lines 181-182; [None] when the
    conversion of the argument of [Math.min] throws. *)
Definition clamp (hi : Q) (v : JsValue) : option JsNumber :=
  match ToNumber (js_or v (JsNum (JsFinite 0))) with
  | Some n => Some (Math_max (JsFinite 0) (Math_min (JsFinite hi) n))
  | None => None
  end.

(** Truthiness of a room key, as tested by [if (player.room)]: [null] and
    the empty string are falsy. *)
Definition truthy (r : string) : bool := negb (String.eqb r "").

(** [s.slice(0, n)] on a string, the characters of a [string] standing for
    the units [slice] counts. *)
Definition slice0 (n : nat) (s : string) : string := String.substring 0 n s.

(* ===================================================================== *)
(** ** Data model *)
(* ===================================================================== *)

Record Avatar : Type := mkAvatar {
  body : string;
  head : string;
  accessory : string
}.

Definition default_avatar : Avatar :=
  {| body := "#3b82f6"; head := "#fbbf24"; accessory := "none" |}.

(** The object stored in [players] (lines 86-94). *)
Record Player : Type := mkPlayer {
  id : string;
  username : string;
  avatar : Avatar;
  x : JsNumber;
  y : JsNumber;
  room : option string;
  lastUpdate : Z
}.

(** A JavaScript [Set] of socket ids: its elements in insertion order. *)
Definition set_add (a : string) (l : list string) : list string :=
  if decide (a ∈ l) then l else l ++ [a].

Definition set_delete (a : string) (l : list string) : list string :=
  filter (λ b, b ≠ a) l.

(** The server state: the two maps of lines 22-23 and, for the transport,
    the rooms each socket has joined with [socket.join]. *)
Record State : Type := mkState {
  players : gmap string Player;
  rooms : gmap string (list string);
  sockets : gmap string (gset string)
}.

Definition init : State :=
  {| players := ∅; rooms := ∅; sockets := ∅ |}.

Definition set_players (f : gmap string Player → gmap string Player) (s : State) : State :=
  {| players := f (players s); rooms := rooms s; sockets := sockets s |}.

Definition set_rooms (f : gmap string (list string) → gmap string (list string)) (s : State) : State :=
  {| players := players s; rooms := f (rooms s); sockets := sockets s |}.

Definition set_sockets (f : gmap string (gset string) → gmap string (gset string)) (s : State) : State :=
  {| players := players s; rooms := rooms s; sockets := f (sockets s) |}.

(** The member set of a room; empty when the room is absent. *)
Definition members (s : State) (r : string) : list string :=
  default [] (rooms s !! r).

(** The transport rooms a socket is in. *)
Definition socket_rooms (s : State) (sid : string) : gset string :=
  default ∅ (sockets s !! sid).

(** [socket.join(r)] and [socket.leave(r)]. *)
Definition socket_join (sid r : string) (s : State) : State :=
  set_sockets (λ m, <[sid := {[r]} ∪ default ∅ (m !! sid)]> m) s.

Definition socket_leave (sid r : string) (s : State) : State :=
  set_sockets (λ m, <[sid := default ∅ (m !! sid) ∖ {[r]}]> m) s.

(** When a connection ends, the transport takes the socket out of all its
    rooms. *)
Definition socket_close (sid : string) (s : State) : State :=
  set_sockets (λ m, delete sid m) s.

(* ===================================================================== *)
(** ** Outbound events *)
(* ===================================================================== *)

(** Who an emit is addressed to: [socket.emit], [socket.to(r).emit] and
    [io.to(r).emit]. *)
Inductive Target : Type :=
| ToSocket (sid : string)
| ToRoomExcept (r : string) (sid : string)
| ToRoom (r : string).

(** What [.slice(0, 200)] returns: a string for a string, an array for an
    array. *)
Inductive Sliced : Type :=
| SlicedStr (s : string)
| SlicedArr (items : list JsValue).

Inductive Payload : Type :=
| RegistrationConfirmed (pid : string) (message : string)
| ErrorEvent (message : string)
| PlayersUpdate (roomPlayers : list Player)
| PlayerJoined (pid : string) (name : string) (av : Avatar) (px py : JsNumber)
| PlayerLeft (pid : string)
| PlayerMoved (pid : string) (px py : JsNumber) (timestamp : Z)
| ChatMessage (mid : Z) (playerId : string) (name : string)
              (message : Sliced) (timestamp : Z).

Record Emit : Type := mkEmit { target : Target; payload : Payload }.

(** Delivery by the transport: the sender itself for [socket.emit]; for a
    room, the sockets that joined it, the sender excluded by [socket.to].
    (The private room the transport keeps per socket is not modelled.) *)
Definition receives (s : State) (t : Target) (q : string) : Prop :=
  match t with
  | ToSocket sid => q = sid
  | ToRoomExcept r sid => q ≠ sid ∧ r ∈ socket_rooms s q
  | ToRoom r => r ∈ socket_rooms s q
  end.

(** The result of running a handler: it returns, or an exception escapes
    it.  Either way the state reached and the events emitted so far stay:
    the process logs an uncaught exception and goes on (lines 304-306). *)
Inductive Outcome : Type :=
| Returned (s : State) (out : list Emit)
| Threw (s : State) (out : list Emit).

Definition state_of (o : Outcome) : State :=
  match o with Returned s _ | Threw s _ => s end.

Definition emitted (o : Outcome) : list Emit :=
  match o with Returned _ out | Threw _ out => out end.

Definition threw (o : Outcome) : bool :=
  match o with Returned _ _ => false | Threw _ _ => true end.

(* ===================================================================== *)
(** ** Event payloads *)
(* ===================================================================== *)

(** In each handler the payload argument may be [undefined] ([None]), in
    which case reading a field of it throws. *)
Record PlayerData : Type := mkPlayerData {
  pd_username : option string;
  pd_avatar : option Avatar
}.

Record MoveData : Type := mkMoveData { data_x : JsValue; data_y : JsValue }.

Record ChatData : Type := mkChatData { data_message : JsValue }.

(** [v.slice(0, 200)]: defined on strings and arrays, a [TypeError] on
    anything else. *)
Definition slice_200 (v : JsValue) : option Sliced :=
  match v with
  | JsStr s _ => Some (SlicedStr (slice0 200 s))
  | JsArr items _ => Some (SlicedArr (take 200 items))
  | _ => None
  end.

(** Whether writing a sliced message into a template string throws, as the
    log line 212 does. *)
Definition sliced_throws (t : Sliced) : bool :=
  match t with
  | SlicedStr _ => false
  | SlicedArr items => existsb conversion_throws items
  end.

(* ===================================================================== *)
(** ** Event handlers *)
(* ===================================================================== *)

(** [register-player], lines 85-103. *)
Definition register_player (s : State) (sid : string)
    (playerData : option PlayerData) (now : Z) : Outcome :=
  match playerData with
  | None => Threw s []
  | Some pd =>
      let name :=
        match pd_username pd with
        | Some u => if truthy u then u else "Player_" +:+ slice0 6 sid
        | None => "Player_" +:+ slice0 6 sid
        end in
      let p := {| id := sid;
                  username := name;
                  avatar := default default_avatar (pd_avatar pd);
                  x := JsFinite 50;
                  y := JsFinite 300;
                  room := None;
                  lastUpdate := now |} in
      Returned (set_players (λ m, <[sid := p]> m) s)
               [mkEmit (ToSocket sid)
                       (RegistrationConfirmed sid "Successfully registered!")]
  end.

Definition with_room (p : Player) (r : option string) (now : Z) : Player :=
  {| id := id p; username := username p; avatar := avatar p;
     x := x p; y := y p; room := r; lastUpdate := now |}.

Definition with_position (p : Player) (px py : JsNumber) (now : Z) : Player :=
  {| id := id p; username := username p; avatar := avatar p;
     x := px; y := py; room := room p; lastUpdate := now |}.

(** [join-room], lines 106-153. *)
Definition join_room (s : State) (sid roomId : string) (now : Z) : Outcome :=
  match players s !! sid with
  | None => Returned s [mkEmit (ToSocket sid) (ErrorEvent "Player not registered")]
  | Some player =>
      (* lines 114-125: leave the previous room *)
      let '(s1, out1) :=
        match room player with
        | Some old =>
            if truthy old then
              let s0 := socket_leave sid old s in
              match rooms s0 !! old with
              | Some oldRoom =>
                  let oldRoom' := set_delete sid oldRoom in
                  if decide (length oldRoom' = 0%nat)
                  then (set_rooms (λ m, delete old m) s0, [])
                  else (set_rooms (λ m, <[old := oldRoom']> m) s0,
                        [mkEmit (ToRoomExcept old sid) (PlayerLeft sid)])
              | None => (s0, [])
              end
            else (s, [])
        | None => (s, [])
        end in
      (* lines 128-130 *)
      let s2 := socket_join sid roomId s1 in
      let player' := with_room player (Some roomId) now in
      let s3 := set_players (λ m, <[sid := player']> m) s2 in
      (* lines 132-135 *)
      let s4 := match rooms s3 !! roomId with
                | Some _ => s3
                | None => set_rooms (λ m, <[roomId := []]> m) s3
                end in
      let s5 := set_rooms (λ m, <[roomId := set_add sid (default [] (m !! roomId))]> m) s4 in
      (* lines 138-141 *)
      let roomPlayers :=
        omap (λ q, players s5 !! q)
             (filter (λ q, q ≠ sid) (default [] (rooms s5 !! roomId))) in
      Returned s5
        (out1 ++
         [mkEmit (ToSocket sid) (PlayersUpdate roomPlayers);
          mkEmit (ToRoomExcept roomId sid)
                 (PlayerJoined (id player') (username player') (avatar player')
                               (x player') (y player'))])
  end.

(** [leave-room], lines 156-173. *)
Definition leave_room (s : State) (sid : string) : Outcome :=
  match players s !! sid with
  | None => Returned s []
  | Some player =>
      match room player with
      | None => Returned s []
      | Some r =>
          if truthy r then
            let s0 := socket_leave sid r s in
            let '(s1, out1) :=
              match rooms s0 !! r with
              | Some members0 =>
                  let members' := set_delete sid members0 in
                  if decide (length members' = 0%nat)
                  then (set_rooms (λ m, delete r m) s0, [])
                  else (set_rooms (λ m, <[r := members']> m) s0,
                        [mkEmit (ToRoomExcept r sid) (PlayerLeft sid)])
              | None => (s0, [])
              end in
            Returned
              (set_players (λ m, <[sid := with_room player None (lastUpdate player)]> m) s1)
              out1
          else Returned s []
      end
  end.

(** [player-move], lines 176-195.  Both coordinates are computed (lines
    181-182) before anything is written: when a conversion throws, the
    entry is as it was and nothing is sent. *)
Definition player_move (s : State) (sid : string) (data : option MoveData)
    (now : Z) : Outcome :=
  match players s !! sid with
  | None => Returned s []
  | Some player =>
      match room player with
      | None => Returned s []
      | Some r =>
          if truthy r then
            match data with
            | None => Threw s []
            | Some d =>
                match clamp 750 (data_x d), clamp 350 (data_y d) with
                | Some px, Some py =>
                    let player' := with_position player px py now in
                    Returned (set_players (λ m, <[sid := player']> m) s)
                      [mkEmit (ToRoomExcept r sid)
                              (PlayerMoved sid px py (lastUpdate player'))]
                | _, _ => Threw s []
                end
            end
          else Returned s []
      end
  end.

(** [chat-message], lines 198-213.  [Date.now()] is read twice, for the
    message id and for its timestamp.  The log line comes after the emit. *)
Definition chat_message (s : State) (sid : string) (data : option ChatData)
    (now_id now_ts : Z) : Outcome :=
  match players s !! sid with
  | None => Returned s []
  | Some player =>
      match room player with
      | None => Returned s []
      | Some r =>
          if truthy r then
            match data with
            | None => Threw s []
            | Some d =>
                match slice_200 (data_message d) with
                | None => Threw s []
                | Some text =>
                    let out :=
                      [mkEmit (ToRoom r)
                              (ChatMessage now_id sid (username player) text now_ts)] in
                    if sliced_throws text then Threw s out else Returned s out
                end
            end
          else Returned s []
      end
  end.

(** [disconnect], lines 243-262. *)
Definition disconnect (s : State) (sid : string) : Outcome :=
  match players s !! sid with
  | None => Returned s []
  | Some player =>
      let '(s1, out1) :=
        match room player with
        | Some r =>
            if truthy r then
              match rooms s !! r with
              | Some members0 =>
                  let members' := set_delete sid members0 in
                  if decide (length members' = 0%nat)
                  then (set_rooms (λ m, delete r m) s, [])
                  else (set_rooms (λ m, <[r := members']> m) s,
                        [mkEmit (ToRoomExcept r sid) (PlayerLeft sid)])
              | None => (s, [])
              end
            else (s, [])
        | None => (s, [])
        end in
      Returned (set_players (λ m, delete sid m) s1) out1
  end.

(** The idle threshold of line 273, in milliseconds. *)
Definition timeout : Z := 5 * 60 * 1000.

(** One turn of the loop of lines 275-291. *)
Definition evict (now : Z) (s : State) (entry : string * Player) : State :=
  let '(socketId, player) := entry in
  if decide (now - lastUpdate player > timeout) then
    let s1 :=
      match room player with
      | Some r =>
          if truthy r then
            match rooms s !! r with
            | Some members0 =>
                let members' := set_delete socketId members0 in
                if decide (length members' = 0%nat)
                then set_rooms (λ m, delete r m) s
                else set_rooms (λ m, <[r := members']> m) s
            | None => s
            end
          else s
      | None => s
      end in
    set_players (λ m, delete socketId m) s1
  else s.

(** The reaper, lines 271-292: every entry of [players] is visited once.
    An eviction touches only the visited entry and its room, so the entries
    can be taken from the map as it is when the tick starts. *)
Definition reaper (s : State) (now : Z) : Outcome :=
  Returned (foldl (evict now) s (map_to_list (players s))) [].

(* ===================================================================== *)
(** ** Runs *)
(* ===================================================================== *)

(** The events the server reacts to, with the readings of [Date.now()] the
    handler makes.  The [disconnect] handler runs once the transport has
    closed the socket. *)
Inductive Event : Type :=
| EvRegisterPlayer (sid : string) (playerData : option PlayerData) (now : Z)
| EvJoinRoom (sid roomId : string) (now : Z)
| EvLeaveRoom (sid : string)
| EvPlayerMove (sid : string) (data : option MoveData) (now : Z)
| EvChatMessage (sid : string) (data : option ChatData) (now_id now_ts : Z)
| EvDisconnect (sid : string)
| EvReaperTick (now : Z).

Definition handle (s : State) (e : Event) : Outcome :=
  match e with
  | EvRegisterPlayer sid pd now => register_player s sid pd now
  | EvJoinRoom sid roomId now => join_room s sid roomId now
  | EvLeaveRoom sid => leave_room s sid
  | EvPlayerMove sid data now => player_move s sid data now
  | EvChatMessage sid data n1 n2 => chat_message s sid data n1 n2
  | EvDisconnect sid => disconnect (socket_close sid s) sid
  | EvReaperTick now => reaper s now
  end.

Definition step (s : State) (e : Event) : State := state_of (handle s e).

(** The state after a sequence of events, one handler at a time. *)
Definition run (evs : list Event) (s : State) : State := foldl step s evs.

Definition reachable (s : State) : Prop := ∃ evs, s = run evs init.

(* ===================================================================== *)
(** ** Notions used in the statements *)
(* ===================================================================== *)

(** The room a player is in, as every handler decides it: the [room] field
    when it passes the test [if (player.room)]. *)
Definition current_room (p : Player) : option string :=
  match room p with
  | Some r => if truthy r then Some r else None
  | None => None
  end.

(** What lines 116-124 (and the same text in the other handlers) do to the
    [rooms] map: take [sid] out of room [r], and delete the room if nobody
    is left. *)
Definition drop_member (sid r : string) (m : gmap string (list string)) :
    gmap string (list string) :=
  match m !! r with
  | Some ms =>
      if decide (length (set_delete sid ms) = 0%nat) then delete r m
      else <[r := set_delete sid ms]> m
  | None => m
  end.

(** The [rooms] map once a player has been taken out of the room it is
    in, if any. *)
Definition rooms_left (sid : string) (p : Player) (m : gmap string (list string)) :
    gmap string (list string) :=
  match current_room p with
  | Some r => drop_member sid r m
  | None => m
  end.

(** The transport rooms left at the same time, and the notice emitted to
    those who stay. *)
Definition left_rooms (p : Player) : gset string :=
  match current_room p with
  | Some r => {[r]}
  | None => ∅
  end.

Definition left_notice (sid : string) (p : Player) (m : gmap string (list string)) :
    list Emit :=
  match current_room p with
  | Some r =>
      match m !! r with
      | Some ms =>
          if decide (set_delete sid ms = []) then []
          else [mkEmit (ToRoomExcept r sid) (PlayerLeft sid)]
      | None => []
      end
  | None => []
  end.

(** A player is inactive at time [now]: the test of line 276. *)
Definition stale (now : Z) (p : Player) : Prop := now - lastUpdate p > timeout.

#[global] Instance stale_dec now p : Decision (stale now p).
Proof. unfold stale. apply _. Defined.

(** Invariants of the reachable states. *)
Definition keys_agree (s : State) : Prop :=
  ∀ k p, players s !! k = Some p → id p = k.

Definition rooms_nonempty (s : State) : Prop :=
  ∀ r ms, rooms s !! r = Some ms → ms ≠ [].

Definition rooms_nodup (s : State) : Prop :=
  ∀ r ms, rooms s !! r = Some ms → NoDup ms.

Definition room_is_member (s : State) : Prop :=
  ∀ k p r, players s !! k = Some p → room p = Some r → k ∈ members s r.

Definition room_is_joined (s : State) : Prop :=
  ∀ k p r, players s !! k = Some p → room p = Some r → r ∈ socket_rooms s k.

Record Inv (s : State) : Prop := mkInv {
  inv_keys : keys_agree s;
  inv_nonempty : rooms_nonempty s;
  inv_nodup : rooms_nodup s;
  inv_member : room_is_member s;
  inv_joined : room_is_joined s
}.

(** A handler run for socket [sid] leaves the other sockets as they are:
    their Player entries, their memberships and their transport rooms. *)
Record frame (sid : string) (s s' : State) : Prop := mkFrame {
  frame_players : ∀ k, k ≠ sid → players s' !! k = players s !! k;
  frame_members : ∀ k r, k ≠ sid → k ∈ members s' r ↔ k ∈ members s r;
  frame_sockets : ∀ k, k ≠ sid → socket_rooms s' k = socket_rooms s k
}.

(** The socket an event comes from; the reaper tick comes from the timer. *)
Definition sender (e : Event) : option string :=
  match e with
  | EvRegisterPlayer sid _ _ | EvJoinRoom sid _ _ | EvLeaveRoom sid
  | EvPlayerMove sid _ _ | EvChatMessage sid _ _ _ | EvDisconnect sid => Some sid
  | EvReaperTick _ => None
  end.

(** The sockets whose connection has ended in a sequence of events. *)
Definition closed (evs : list Event) : gset string :=
  foldr (λ e c, match e with EvDisconnect sid => {[sid]} ∪ c | _ => c end) ∅ evs.

(** Every member of a room whose socket is not in [c] is in the transport
    room of the same name. *)
Definition members_joined (c : gset string) (s : State) : Prop :=
  ∀ q r, q ∈ members s r → q ∉ c → r ∈ socket_rooms s q.

(** A coordinate within the playfield bound [[0, hi]]. *)
Definition in_range (hi : Q) (n : JsNumber) : Prop :=
  match n with
  | JsFinite q => (0 <= q)%Q ∧ (q <= hi)%Q
  | _ => False
  end.

(** [disconnect] as the specification words it: [leaveRoom], then the
    Player entry is removed. *)
Definition remove_player (sid : string) (s : State) : State :=
  set_players (λ m, delete sid m) s.

Definition disconnect_spec (s : State) (sid : string) : Outcome :=
  let o := leave_room s sid in
  Returned (remove_player sid (state_of o)) (emitted o).

(** The registries (without the transport's own bookkeeping). *)
Definition registries (s : State) : gmap string Player * gmap string (list string) :=
  (players s, rooms s).

(** A value that has the [slice] method the chat handler calls. *)
Definition sliceable (v : JsValue) : bool :=
  match v with
  | JsStr _ _ | JsArr _ _ => true
  | _ => false
  end.

(** A text of [n] units. *)
Fixpoint text_of_length (n : nat) : string :=
  match n with
  | O => ""
  | S n' => "a" +:+ text_of_length n'
  end.

(** Sample data for the examples: two anonymous players in room [r1]. *)
Definition anon : option PlayerData :=
  Some {| pd_username := None; pd_avatar := None |}.

Definition lobby : list Event :=
  [EvRegisterPlayer "A" anon 0; EvJoinRoom "A" "r1" 1;
   EvRegisterPlayer "B" anon 2; EvJoinRoom "B" "r1" 3].

Definition player_A : Player :=
  {| id := "A"; username := "Player_A"; avatar := default_avatar;
     x := JsFinite 50; y := JsFinite 300; room := Some "r1"; lastUpdate := 1 |}.

(** The correspondence the specification asks for between the [room] field
    and the member sets: the field is set iff the player is in one room,
    and in one room only. *)
Definition room_matches_membership (s : State) : Prop :=
  ∀ k p, players s !! k = Some p →
         (room p ≠ None ↔
          ∃ r, k ∈ members s r ∧ ∀ r', k ∈ members s r' → r' = r).

(** A registers, joins [r1], and registers again. *)
Definition reregistration : list Event :=
  [EvRegisterPlayer "A" anon 0; EvJoinRoom "A" "r1" 1; EvRegisterPlayer "A" anon 2].

(** A run in which no socket registers again while its [room] field is
    set, and no room key is the empty string. *)
Definition tidy_event (s : State) (e : Event) : Prop :=
  match e with
  | EvRegisterPlayer sid _ _ => ∀ p, players s !! sid = Some p → room p = None
  | EvJoinRoom _ roomId _ => roomId ≠ ""
  | _ => True
  end.

Fixpoint tidy (s : State) (evs : list Event) : Prop :=
  match evs with
  | [] => True
  | e :: rest => tidy_event s e ∧ tidy (step s e) rest
  end.

(** Every member of a room is a registered player whose [room] field is
    that room, and the key of that room is truthy. *)
Definition membership_is_room (s : State) : Prop :=
  (∀ k r, k ∈ members s r → ∃ p, players s !! k = Some p ∧ room p = Some r)
  ∧ (∀ k p r, players s !! k = Some p → room p = Some r → truthy r = true).

(* ===================================================================== *)
(** ** The game catalogue and the status routes *)
(* ===================================================================== *)

(** A JavaScript [Map] with string keys whose iteration order is observed:
    its entries in insertion order.  [set] on a key already present keeps
    the place of the entry. *)
Fixpoint map_set {V : Type} (k : string) (v : V) (l : list (string * V)) :
    list (string * V) :=
  match l with
  | [] => [(k, v)]
  | (k', v') :: l' =>
      if decide (k' = k) then (k, v) :: l' else (k', v') :: map_set k v l'
  end.

Fixpoint map_get {V : Type} (k : string) (l : list (string * V)) : option V :=
  match l with
  | [] => None
  | (k', v') :: l' => if decide (k' = k) then Some v' else map_get k l'
  end.

(** The object stored in [games] (lines 221-230).  The title, description
    and design data are copied from the payload as they come. *)
Record Game : Type := mkGame {
  gameId : string;
  title : JsValue;
  description : JsValue;
  creator : string;
  createdAt : string;
  gameData : JsValue;
  plays : Z;
  likes : Z
}.

(** The payload of [save-game]. *)
Record SaveData : Type := mkSaveData {
  sd_title : JsValue;
  sd_description : JsValue;
  sd_gameData : JsValue
}.

(** The whole server: the registries and transport rooms, and the [games]
    map of line 24. *)
Record Server : Type := mkServer {
  core : State;
  games : list (string * Game)
}.

Definition server_init : Server := {| core := init; games := [] |}.

(** What the two catalogue handlers send, always to the calling socket. *)
Inductive CatalogPayload : Type :=
| GameSaved (gid : string) (message : string)
| GamesList (gameList : list Game).

Inductive ServerEmit : Type :=
| CoreEmit (e : Emit)
| CatalogEmit (sid : string) (p : CatalogPayload).

Record ServerOutcome : Type := mkServerOutcome {
  after : Server;
  sent : list ServerEmit;
  raised : bool
}.

(** Line 220: [`game_${Date.now()}_${socket.id.slice(0, 6)}`]; the time is
    an integer number of milliseconds, printed in decimal. *)
Definition game_id_of (now : Z) (sid : string) : string :=
  "game_" +:+ pretty now +:+ "_" +:+ slice0 6 sid.

(** [save-game], lines 216-234; [iso] is what [new Date().toISOString()]
    returns.  The log line, which writes the title into a template string,
    comes after the record is stored and the confirmation sent. *)
Definition save_game (sv : Server) (sid : string) (data : option SaveData)
    (now : Z) (iso : string) : ServerOutcome :=
  match players (core sv) !! sid with
  | None => {| after := sv; sent := []; raised := false |}
  | Some player =>
      match data with
      | None => {| after := sv; sent := []; raised := true |}
      | Some d =>
          let gid := game_id_of now sid in
          let game := {| gameId := gid;
                         title := sd_title d;
                         description := sd_description d;
                         creator := username player;
                         createdAt := iso;
                         gameData := sd_gameData d;
                         plays := 0;
                         likes := 0 |} in
          {| after := {| core := core sv; games := map_set gid game (games sv) |};
             sent := [CatalogEmit sid (GameSaved gid "Game saved successfully!")];
             raised := conversion_throws (sd_title d) |}
      end
  end.

(** [get-games], lines 237-240. *)
Definition get_games (sv : Server) (sid : string) : ServerOutcome :=
  {| after := sv;
     sent := [CatalogEmit sid (GamesList (snd <$> games sv))];
     raised := false |}.

Inductive ServerEvent : Type :=
| EvCore (e : Event)
| EvSaveGame (sid : string) (data : option SaveData) (now : Z) (iso : string)
| EvGetGames (sid : string).

Definition server_handle (sv : Server) (e : ServerEvent) : ServerOutcome :=
  match e with
  | EvCore e =>
      let o := handle (core sv) e in
      {| after := {| core := state_of o; games := games sv |};
         sent := CoreEmit <$> emitted o;
         raised := threw o |}
  | EvSaveGame sid data now iso => save_game sv sid data now iso
  | EvGetGames sid => get_games sv sid
  end.

Definition server_step (sv : Server) (e : ServerEvent) : Server :=
  after (server_handle sv e).

Definition server_run (evs : list ServerEvent) (sv : Server) : Server :=
  foldl server_step sv evs.

(** One element of the answer of [/rooms] (lines 63-78): the room key, the
    size of the member set, and the name and id of each member that has an
    entry in [players]. *)
Record RoomInfo : Type := mkRoomInfo {
  ri_roomId : string;
  playerCount : nat;
  ri_players : list (string * string)
}.

Definition room_info (s : State) (entry : string * list string) : RoomInfo :=
  let '(roomId, playerIds) := entry in
  {| ri_roomId := roomId;
     playerCount := length playerIds;
     ri_players := (λ p, (username p, id p)) <$> omap (λ i, players s !! i) playerIds |}.

(** The answer of [/rooms].  The route lists the rooms in the insertion
    order of the [rooms] map, which the model does not keep: the list is
    right up to the order of its elements. *)
Definition rooms_route (s : State) : list RoomInfo :=
  room_info s <$> map_to_list (rooms s).

(** The counts of [/] and [/stats] (lines 27-61), and the [activeRooms] of
    [/stats], up to order as well. *)
Record Stats : Type := mkStats {
  st_players : nat;
  st_rooms : nat;
  st_games : nat;
  activeRooms : list (string * nat)
}.

Definition stats_route (sv : Server) : Stats :=
  {| st_players := size (players (core sv));
     st_rooms := size (rooms (core sv));
     st_games := length (games sv);
     activeRooms := (λ '(roomId, playerIds), (roomId, length playerIds))
                    <$> map_to_list (rooms (core sv)) |}.

(** The socket events among the events of the whole server. *)
Definition core_events (evs : list ServerEvent) : list Event :=
  omap (λ e, match e with EvCore e' => Some e' | _ => None end) evs.

(** The record [save-game] stores for player [p]. *)
Definition game_of (p : Player) (sid : string) (d : SaveData) (now : Z)
    (iso : string) : Game :=
  {| gameId := game_id_of now sid;
     title := sd_title d;
     description := sd_description d;
     creator := username p;
     createdAt := iso;
     gameData := sd_gameData d;
     plays := 0;
     likes := 0 |}.

(** An event that is a chat message. *)
Definition is_chat (e : Event) : Prop :=
  match e with
  | EvChatMessage _ _ _ _ => True
  | _ => False
  end.

(* ===================================================================== *)
(** ** Sets of socket ids *)
(* ===================================================================== *)

Lemma elem_of_set_add (q a : string) (l : list string) :
  q ∈ set_add a l ↔ q = a ∨ q ∈ l.
Proof.
  unfold set_add. case_decide as Hin.
  - split; [auto|]. intros [->|]; done.
  - rewrite elem_of_app, list_elem_of_singleton. tauto.
Qed.

Lemma elem_of_set_delete (q a : string) (l : list string) :
  q ∈ set_delete a l ↔ q ∈ l ∧ q ≠ a.
Proof. unfold set_delete. rewrite list_elem_of_filter. tauto. Qed.

Lemma set_add_nonempty (a : string) (l : list string) : set_add a l ≠ [].
Proof.
  intros Hnil. assert (a ∈ set_add a l) as Hin by (apply elem_of_set_add; auto).
  rewrite Hnil in Hin. by apply not_elem_of_nil in Hin.
Qed.

Lemma NoDup_set_add (a : string) (l : list string) : NoDup l → NoDup (set_add a l).
Proof.
  intros Hl. unfold set_add. case_decide as Hin; [done|].
  apply NoDup_app. split_and!; [done| |apply NoDup_singleton].
  intros b Hb ->%list_elem_of_singleton. done.
Qed.

Lemma NoDup_set_delete (a : string) (l : list string) : NoDup l → NoDup (set_delete a l).
Proof. apply NoDup_filter. Qed.

Lemma length_zero_nil {T} (l : list T) : length l = 0%nat ↔ l = [].
Proof. destruct l; simpl; split; intros; done. Qed.


(* ===================================================================== *)
(** ** Leaving a room *)
(* ===================================================================== *)

Lemma lookup_drop_member (sid r r' : string) (m : gmap string (list string)) :
  drop_member sid r m !! r' =
    if decide (r' = r) then
      match m !! r with
      | Some ms => if decide (set_delete sid ms = []) then None
                   else Some (set_delete sid ms)
      | None => None
      end
    else m !! r'.
Proof.
  unfold drop_member. destruct (m !! r) as [ms|] eqn:Hm.
  - destruct (decide (length (set_delete sid ms) = 0%nat)) as [Hl|Hl];
      rewrite length_zero_nil in Hl.
    + rewrite (decide_True _ _ Hl).
      destruct (decide (r' = r)) as [->|Hne].
      * apply lookup_delete_eq.
      * by apply lookup_delete_ne.
    + rewrite (decide_False _ _ Hl).
      destruct (decide (r' = r)) as [->|Hne].
      * apply lookup_insert_eq.
      * by apply lookup_insert_ne.
  - destruct (decide (r' = r)) as [->|]; by rewrite ?Hm.
Qed.

Lemma elem_of_drop_member (q sid r r' : string) (m : gmap string (list string)) :
  q ∈ default [] (drop_member sid r m !! r') ↔
  q ∈ default [] (m !! r') ∧ ¬ (q = sid ∧ r' = r).
Proof.
  rewrite lookup_drop_member. destruct (decide (r' = r)) as [->|Hne].
  - destruct (m !! r) as [ms|] eqn:Hm; simpl.
    + destruct (decide (set_delete sid ms = [])) as [He|He]; simpl.
      * split; [by intros ?%not_elem_of_nil|].
        intros [Hq Hn]. assert (q ∈ set_delete sid ms) as Hd.
        { apply elem_of_set_delete. split; [done|]. intros ->. by apply Hn. }
        rewrite He in Hd. by apply not_elem_of_nil in Hd.
      * rewrite elem_of_set_delete. split; intros [? ?]; split; try done.
        -- intros [-> _]. done.
        -- intros ->. auto.
    + split; [by intros ?%not_elem_of_nil|]. by intros [?%not_elem_of_nil _].
  - split; [|tauto]. intros ?. split; [done|]. intros [_ ?]. done.
Qed.

Lemma drop_member_nonempty (sid r r' : string) (m : gmap string (list string)) ms :
  (∀ r0 ms0, m !! r0 = Some ms0 → ms0 ≠ []) →
  drop_member sid r m !! r' = Some ms → ms ≠ [].
Proof.
  intros Hm. rewrite lookup_drop_member. destruct (decide (r' = r)) as [->|].
  - destruct (m !! r); [|done]. case_decide; [done|]. by intros [= <-].
  - apply Hm.
Qed.

Lemma drop_member_nodup (sid r r' : string) (m : gmap string (list string)) ms :
  (∀ r0 ms0, m !! r0 = Some ms0 → NoDup ms0) →
  drop_member sid r m !! r' = Some ms → NoDup ms.
Proof.
  intros Hm. rewrite lookup_drop_member. destruct (decide (r' = r)) as [->|].
  - destruct (m !! r) as [ms0|] eqn:E; [|done]. case_decide; [done|].
    intros [= <-]. apply NoDup_set_delete. eauto.
  - apply Hm.
Qed.


(* ===================================================================== *)
(** ** What each handler does to the state *)
(* ===================================================================== *)

Lemma join_room_unregistered s sid roomId now :
  players s !! sid = None →
  join_room s sid roomId now =
    Returned s [mkEmit (ToSocket sid) (ErrorEvent "Player not registered")].
Proof. intros Hp. unfold join_room. by rewrite Hp. Qed.

Local Ltac join_room_done :=
  unfold socket_join, socket_leave, set_sockets, set_rooms, set_players; simpl;
  repeat (first [ match goal with H : _ !! _ = _ |- _ => rewrite H end
                | rewrite lookup_insert_eq
                | rewrite insert_insert_eq
                | rewrite difference_empty_L ]; simpl);
  reflexivity.

Lemma ensure_room_add (m : gmap string (list string)) (roomId sid : string) :
  <[roomId := set_add sid (default [] (<[roomId := []]> m !! roomId))]> (<[roomId := []]> m)
  = <[roomId := set_add sid []]> m.
Proof. by rewrite lookup_insert_eq, insert_insert_eq. Qed.

Lemma join_room_registered s sid roomId now p :
  players s !! sid = Some p →
  let m1 := rooms_left sid p (rooms s) in
  let s' := {| players := <[sid := with_room p (Some roomId) now]> (players s);
               rooms := <[roomId := set_add sid (default [] (m1 !! roomId))]> m1;
               sockets := <[sid := {[roomId]} ∪ (socket_rooms s sid ∖ left_rooms p)]> (sockets s) |} in
  join_room s sid roomId now =
    Returned s'
      (left_notice sid p (rooms s) ++
       [mkEmit (ToSocket sid)
               (PlayersUpdate (omap (λ q, players s' !! q)
                                    (filter (λ q, q ≠ sid) (members s' roomId))));
        mkEmit (ToRoomExcept roomId sid)
               (PlayerJoined (id p) (username p) (avatar p) (x p) (y p))]).
Proof.
  intros Hp. unfold join_room, rooms_left, left_rooms, left_notice, current_room,
    drop_member, members, socket_rooms.
  rewrite Hp.
  destruct (room p) as [old|]; [destruct (truthy old)|]; simpl.
  - destruct (rooms s !! old) as [ms|] eqn:Hold; simpl.
    + destruct (decide (length (set_delete sid ms) = 0%nat)) as [Hl|Hl];
        pose proof Hl as Hl'; rewrite length_zero_nil in Hl'.
      * rewrite (decide_True _ _ Hl').
        destruct (delete old (rooms s) !! roomId) as [ms'|] eqn:Hnew; join_room_done.
      * rewrite (decide_False _ _ Hl').
        destruct (<[old:=set_delete sid ms]> (rooms s) !! roomId) as [ms'|] eqn:Hnew;
          join_room_done.
    + destruct (rooms s !! roomId) as [ms'|] eqn:Hnew; join_room_done.
  - destruct (rooms s !! roomId) as [ms'|] eqn:Hnew; join_room_done.
  - destruct (rooms s !! roomId) as [ms'|] eqn:Hnew; join_room_done.
Qed.

Lemma leave_room_in_room s sid p r :
  players s !! sid = Some p → current_room p = Some r →
  leave_room s sid =
    Returned {| players := <[sid := with_room p None (lastUpdate p)]> (players s);
                rooms := drop_member sid r (rooms s);
                sockets := <[sid := socket_rooms s sid ∖ {[r]}]> (sockets s) |}
             (left_notice sid p (rooms s)).
Proof.
  intros Hp Hr. unfold leave_room, left_notice, drop_member, socket_rooms.
  rewrite Hp, Hr. unfold current_room in Hr.
  destruct (room p) as [r'|]; [|done].
  destruct (truthy r') eqn:Ht; [|done]. injection Hr as ->. simpl.
  destruct (rooms s !! r) as [ms|] eqn:Hold; simpl; [|done].
  destruct (decide (length (set_delete sid ms) = 0%nat)) as [Hl|Hl];
    pose proof Hl as Hl'; rewrite length_zero_nil in Hl'.
  - by rewrite (decide_True _ _ Hl').
  - by rewrite (decide_False _ _ Hl').
Qed.

Lemma leave_room_no_room s sid :
  (∀ p, players s !! sid = Some p → current_room p = None) →
  leave_room s sid = Returned s [].
Proof.
  intros Hn. unfold leave_room. destruct (players s !! sid) as [p|]; [|done].
  specialize (Hn p eq_refl). unfold current_room in Hn.
  destruct (room p) as [r|]; [|done]. by destruct (truthy r).
Qed.

Lemma disconnect_registered s sid p :
  players s !! sid = Some p →
  disconnect s sid =
    Returned {| players := delete sid (players s);
                rooms := rooms_left sid p (rooms s);
                sockets := sockets s |}
             (left_notice sid p (rooms s)).
Proof.
  intros Hp. unfold disconnect, rooms_left, left_notice, current_room, drop_member.
  rewrite Hp.
  destruct (room p) as [r|]; [destruct (truthy r)|]; simpl; try done.
  destruct (rooms s !! r) as [ms|] eqn:Hold; simpl; [|done].
  destruct (decide (length (set_delete sid ms) = 0%nat)) as [Hl|Hl];
    pose proof Hl as Hl'; rewrite length_zero_nil in Hl'.
  - by rewrite (decide_True _ _ Hl').
  - by rewrite (decide_False _ _ Hl').
Qed.

Lemma disconnect_unregistered s sid :
  players s !! sid = None → disconnect s sid = Returned s [].
Proof. intros Hp. unfold disconnect. by rewrite Hp. Qed.

Lemma handle_disconnect_registered s sid p :
  players s !! sid = Some p →
  handle s (EvDisconnect sid) =
    Returned {| players := delete sid (players s);
                rooms := rooms_left sid p (rooms s);
                sockets := delete sid (sockets s) |}
             (left_notice sid p (rooms s)).
Proof. intros Hp. simpl. by rewrite (disconnect_registered _ _ p). Qed.

Lemma handle_disconnect_unregistered s sid :
  players s !! sid = None →
  handle s (EvDisconnect sid) = Returned (socket_close sid s) [].
Proof. intros Hp. simpl. by rewrite disconnect_unregistered. Qed.

Lemma evict_stale now s k p :
  stale now p →
  evict now s (k, p) = {| players := delete k (players s);
                          rooms := rooms_left k p (rooms s);
                          sockets := sockets s |}.
Proof.
  intros Hs. unfold evict, rooms_left, current_room, drop_member.
  rewrite decide_True by exact Hs.
  destruct (room p) as [r|]; [destruct (truthy r)|]; simpl; try done.
  destruct (rooms s !! r) as [ms|] eqn:Hold; simpl; [|done].
  by destruct (decide (length (set_delete k ms) = 0%nat)).
Qed.

Lemma evict_fresh now s k p : ¬ stale now p → evict now s (k, p) = s.
Proof. intros Hs. unfold evict. by rewrite decide_False by exact Hs. Qed.

(* ===================================================================== *)
(** ** Membership after a handler *)
(* ===================================================================== *)

Lemma elem_of_rooms_left (q k r : string) (p : Player) (m : gmap string (list string)) :
  q ∈ default [] (rooms_left k p m !! r) ↔
  q ∈ default [] (m !! r) ∧ ¬ (q = k ∧ current_room p = Some r).
Proof.
  unfold rooms_left. destruct (current_room p) as [r0|].
  - rewrite elem_of_drop_member. split; intros [? Hn]; split; try done.
    + intros [-> [= ->]]. by apply Hn.
    + intros [-> ->]. by apply Hn.
  - split; [|tauto]. intros ?. split; [done|]. by intros [_ ?].
Qed.

Lemma elem_of_insert_add (q sid roomId r : string) (m : gmap string (list string)) :
  q ∈ default [] (<[roomId := set_add sid (default [] (m !! roomId))]> m !! r) ↔
  q ∈ default [] (m !! r) ∨ (q = sid ∧ r = roomId).
Proof.
  destruct (decide (r = roomId)) as [->|Hne].
  - rewrite lookup_insert_eq. simpl. rewrite elem_of_set_add. tauto.
  - rewrite lookup_insert_ne by done. split; [auto|]. intros [?|[_ ?]]; done.
Qed.

Lemma rooms_left_nonempty (k r : string) (p : Player) (m : gmap string (list string)) ms :
  (∀ r0 ms0, m !! r0 = Some ms0 → ms0 ≠ []) →
  rooms_left k p m !! r = Some ms → ms ≠ [].
Proof.
  unfold rooms_left. destruct (current_room p); [apply drop_member_nonempty|].
  intros H. apply H.
Qed.

Lemma rooms_left_nodup (k r : string) (p : Player) (m : gmap string (list string)) ms :
  (∀ r0 ms0, m !! r0 = Some ms0 → NoDup ms0) →
  rooms_left k p m !! r = Some ms → NoDup ms.
Proof.
  unfold rooms_left. destruct (current_room p); [apply drop_member_nodup|].
  intros H. apply H.
Qed.

Lemma current_room_Some (p : Player) (r : string) :
  current_room p = Some r ↔ room p = Some r ∧ truthy r = true.
Proof.
  unfold current_room. destruct (room p) as [r'|].
  - destruct (truthy r') eqn:Ht.
    + split; [by intros [= <-]|]. by intros [[= <-] _].
    + split; [done|]. intros [[= <-] ?]. congruence.
  - split; [done|]. by intros [? _].
Qed.

(* ===================================================================== *)
(** ** A handler only touches its own socket *)
(* ===================================================================== *)

Lemma frame_refl sid s : frame sid s s.
Proof. by split. Qed.

Lemma register_player_frame s sid pd now :
  frame sid s (state_of (register_player s sid pd now)).
Proof.
  unfold register_player. destruct pd as [pd|]; [|apply frame_refl].
  split; simpl; try done. intros k Hk. by rewrite lookup_insert_ne.
Qed.

Lemma join_room_frame s sid roomId now :
  frame sid s (state_of (join_room s sid roomId now)).
Proof.
  destruct (players s !! sid) as [p|] eqn:Hp.
  - rewrite (join_room_registered _ _ _ _ _ Hp). split; simpl.
    + intros k Hk. by rewrite lookup_insert_ne.
    + intros k r Hk. unfold members; simpl.
      rewrite elem_of_insert_add, elem_of_rooms_left.
      split; [intros [[? _]|[? _]]; done|]. intros ?. left. split; [done|].
      by intros [? _].
    + intros k Hk. unfold socket_rooms; simpl. by rewrite lookup_insert_ne.
  - rewrite (join_room_unregistered _ _ _ _ Hp). apply frame_refl.
Qed.

Lemma leave_room_frame s sid : frame sid s (state_of (leave_room s sid)).
Proof.
  destruct (players s !! sid) as [p|] eqn:Hp.
  - destruct (current_room p) as [r|] eqn:Hr.
    + rewrite (leave_room_in_room _ _ _ _ Hp Hr). split; simpl.
      * intros k Hk. by rewrite lookup_insert_ne.
      * intros k r' Hk. unfold members; simpl. rewrite elem_of_drop_member.
        split; [by intros [? _]|]. intros ?. split; [done|]. by intros [? _].
      * intros k Hk. unfold socket_rooms; simpl. by rewrite lookup_insert_ne.
    + rewrite leave_room_no_room; [apply frame_refl|].
      intros p' Hp'. congruence.
  - rewrite leave_room_no_room; [apply frame_refl|]. intros p' Hp'. congruence.
Qed.

Lemma player_move_frame s sid data now :
  frame sid s (state_of (player_move s sid data now)).
Proof.
  unfold player_move. destruct (players s !! sid) as [p|]; [|apply frame_refl].
  destruct (room p) as [r|]; [|apply frame_refl].
  destruct (truthy r); [|apply frame_refl].
  destruct data as [d|]; [|apply frame_refl].
  destruct (clamp 750 (data_x d)) as [px|]; [|apply frame_refl].
  destruct (clamp 350 (data_y d)) as [py|]; [|apply frame_refl].
  split; simpl; try done. intros k Hk. by rewrite lookup_insert_ne.
Qed.

Lemma player_move_state s sid data now :
  state_of (player_move s sid data now) = s
  ∨ ∃ p px py, players s !! sid = Some p
               ∧ state_of (player_move s sid data now)
                 = set_players (λ m, <[sid := with_position p px py now]> m) s.
Proof.
  unfold player_move. destruct (players s !! sid) as [p|]; [|by left].
  destruct (room p) as [r|]; [|by left]. destruct (truthy r); [|by left].
  destruct data as [d|]; [|by left].
  destruct (clamp 750 (data_x d)) as [px|]; [|by left].
  destruct (clamp 350 (data_y d)) as [py|]; [|by left].
  right. by eexists _, _, _.
Qed.

Lemma chat_message_state s sid data n1 n2 :
  state_of (chat_message s sid data n1 n2) = s.
Proof.
  unfold chat_message. destruct (players s !! sid) as [p|]; [|done].
  destruct (room p) as [r|]; [|done]. destruct (truthy r); [|done].
  destruct data as [d|]; [|done].
  destruct (slice_200 (data_message d)) as [text|]; [|done].
  by destruct (sliced_throws text).
Qed.

Lemma disconnect_frame s sid : frame sid s (state_of (handle s (EvDisconnect sid))).
Proof.
  destruct (players s !! sid) as [p|] eqn:Hp.
  - rewrite (handle_disconnect_registered _ _ _ Hp). split; simpl.
    + intros k Hk. by rewrite lookup_delete_ne.
    + intros k r' Hk. unfold members; simpl. rewrite elem_of_rooms_left.
      split; [by intros [? _]|]. intros ?. split; [done|]. by intros [? _].
    + intros k Hk. unfold socket_rooms; simpl. by rewrite lookup_delete_ne.
  - rewrite (handle_disconnect_unregistered _ _ Hp). split; simpl; try done.
    intros k Hk. unfold socket_rooms; simpl. by rewrite lookup_delete_ne.
Qed.

Lemma handle_frame s e sid : sender e = Some sid → frame sid s (step s e).
Proof.
  unfold step. destruct e; simpl; intros [= <-].
  - apply register_player_frame.
  - apply join_room_frame.
  - apply leave_room_frame.
  - apply player_move_frame.
  - rewrite chat_message_state. apply frame_refl.
  - apply (disconnect_frame s sid0).
Qed.

Lemma evict_frame now s k p : frame k s (evict now s (k, p)).
Proof.
  destruct (decide (stale now p)) as [Hs|Hs].
  - rewrite (evict_stale _ _ _ _ Hs). split; simpl; try done.
    + intros q Hq. by rewrite lookup_delete_ne.
    + intros q r' Hq. unfold members; simpl. rewrite elem_of_rooms_left.
      split; [by intros [? _]|]. intros ?. split; [done|]. by intros [? _].
  - rewrite (evict_fresh _ _ _ _ Hs). apply frame_refl.
Qed.

(* ===================================================================== *)
(** ** The invariants hold in every reachable state *)
(* ===================================================================== *)

Lemma Inv_init : Inv init.
Proof. split; intros ? *; simpl; by rewrite ?lookup_empty. Qed.

Lemma Inv_update sid s s' :
  Inv s → frame sid s s' →
  (∀ r ms, rooms s' !! r = Some ms → ms ≠ [] ∧ NoDup ms) →
  (∀ p', players s' !! sid = Some p' →
         id p' = sid ∧
         ∀ r, room p' = Some r → sid ∈ members s' r ∧ r ∈ socket_rooms s' sid) →
  Inv s'.
Proof.
  intros [Hk Hne Hnd Hm Hj] [Fp Fm Fs] Hrooms Hsid. split.
  - intros k p Hp. destruct (decide (k = sid)) as [->|Hne'].
    + by apply Hsid.
    + rewrite Fp in Hp by done. by apply Hk.
  - intros r ms Hr. by apply Hrooms in Hr as [? _].
  - intros r ms Hr. by apply Hrooms in Hr as [_ ?].
  - intros k p r Hp Hr. destruct (decide (k = sid)) as [->|Hne'].
    + by apply (Hsid p Hp).
    + rewrite Fp in Hp by done. apply Fm; [done|]. by eapply Hm.
  - intros k p r Hp Hr. destruct (decide (k = sid)) as [->|Hne'].
    + by apply (Hsid p Hp).
    + rewrite Fp in Hp by done. rewrite Fs by done. by eapply Hj.
Qed.

Lemma Inv_rooms s :
  Inv s → ∀ r ms, rooms s !! r = Some ms → ms ≠ [] ∧ NoDup ms.
Proof. intros HI r ms Hr. split; [by eapply inv_nonempty|by eapply inv_nodup]. Qed.

Lemma Inv_rooms_left s k p :
  Inv s → ∀ r ms, rooms_left k p (rooms s) !! r = Some ms → ms ≠ [] ∧ NoDup ms.
Proof.
  intros HI r ms Hr. split.
  - eapply rooms_left_nonempty; [|done]. apply HI.
  - eapply rooms_left_nodup; [|done]. apply HI.
Qed.

Lemma register_player_Inv s sid pd now :
  Inv s → Inv (state_of (register_player s sid pd now)).
Proof.
  intros HI. apply (Inv_update sid s); [done|apply register_player_frame|..];
    unfold register_player; destruct pd as [pd|]; simpl.
  - by apply Inv_rooms.
  - by apply Inv_rooms.
  - rewrite lookup_insert_eq. by intros p' [= <-].
  - intros p' Hp. split; [by eapply inv_keys|]. intros r Hr. split.
    + by eapply inv_member.
    + by eapply inv_joined.
Qed.

Lemma join_room_Inv s sid roomId now :
  Inv s → Inv (state_of (join_room s sid roomId now)).
Proof.
  intros HI. apply (Inv_update sid s); [done|apply join_room_frame|..];
    destruct (players s !! sid) as [p|] eqn:Hp.
  - rewrite (join_room_registered _ _ _ _ _ Hp). simpl. intros r ms.
    destruct (decide (r = roomId)) as [->|Hne].
    + rewrite lookup_insert_eq. intros [= <-]. split; [apply set_add_nonempty|].
      apply NoDup_set_add.
      destruct (rooms_left sid p (rooms s) !! roomId) as [ms0|] eqn:E; simpl.
      * by eapply (Inv_rooms_left s sid p HI roomId).
      * apply NoDup_nil_2.
    + rewrite lookup_insert_ne by done. by apply Inv_rooms_left.
  - rewrite (join_room_unregistered _ _ _ _ Hp). by apply Inv_rooms.
  - rewrite (join_room_registered _ _ _ _ _ Hp). simpl.
    rewrite lookup_insert_eq. intros p' [= <-]. simpl.
    split; [by eapply inv_keys|]. intros r [= <-]. split.
    + unfold members; simpl. apply elem_of_insert_add. by right.
    + unfold socket_rooms; simpl. rewrite lookup_insert_eq. simpl.
      apply elem_of_union_l, elem_of_singleton. done.
  - rewrite (join_room_unregistered _ _ _ _ Hp). simpl. by rewrite Hp.
Qed.

Lemma leave_room_Inv s sid : Inv s → Inv (state_of (leave_room s sid)).
Proof.
  intros HI.
  destruct (players s !! sid) as [p|] eqn:Hp;
    [destruct (current_room p) as [r|] eqn:Hr|].
  - apply (Inv_update sid s); [done|apply leave_room_frame|..];
      rewrite (leave_room_in_room _ _ _ _ Hp Hr); simpl.
    + intros r' ms Hl. apply (Inv_rooms_left s sid p HI r').
      unfold rooms_left. by rewrite Hr.
    + rewrite lookup_insert_eq. intros p' [= <-]. simpl.
      split; [by eapply inv_keys|done].
  - rewrite leave_room_no_room; [done|]. intros p' Hp'. congruence.
  - rewrite leave_room_no_room; [done|]. intros p' Hp'. congruence.
Qed.

Lemma player_move_Inv s sid data now :
  Inv s → Inv (state_of (player_move s sid data now)).
Proof.
  intros HI. pose proof (player_move_frame s sid data now) as F.
  destruct (player_move_state s sid data now) as [->|(p & px & py & Hp & Hst)];
    [done|].
  rewrite Hst in F |- *.
  apply (Inv_update sid s); [done|done|..].
  - simpl. by apply Inv_rooms.
  - simpl. rewrite lookup_insert_eq. intros p' [= <-]. simpl.
    split; [by eapply inv_keys|]. intros r' Hr'. split.
    + by eapply (inv_member s HI sid p).
    + by eapply (inv_joined s HI sid p).
Qed.

Lemma disconnect_Inv s sid : Inv s → Inv (state_of (handle s (EvDisconnect sid))).
Proof.
  intros HI. apply (Inv_update sid s); [done|apply disconnect_frame|..];
    destruct (players s !! sid) as [p|] eqn:Hp.
  - rewrite (handle_disconnect_registered _ _ _ Hp). simpl. by apply Inv_rooms_left.
  - rewrite (handle_disconnect_unregistered _ _ Hp). simpl. by apply Inv_rooms.
  - rewrite (handle_disconnect_registered _ _ _ Hp). simpl. by rewrite lookup_delete_eq.
  - rewrite (handle_disconnect_unregistered _ _ Hp). simpl. by rewrite Hp.
Qed.

Lemma evict_Inv now s entry : Inv s → Inv (evict now s entry).
Proof.
  intros HI. destruct entry as [k p].
  destruct (decide (stale now p)) as [Hs|Hs].
  - apply (Inv_update k s); [done|apply evict_frame|..];
      rewrite (evict_stale _ _ _ _ Hs); simpl.
    + by apply Inv_rooms_left.
    + by rewrite lookup_delete_eq.
  - by rewrite (evict_fresh _ _ _ _ Hs).
Qed.

Lemma foldl_evict_Inv now l s : Inv s → Inv (foldl (evict now) s l).
Proof.
  revert s. induction l as [|entry l IH]; intros s HI; simpl; [done|].
  apply IH. by apply evict_Inv.
Qed.

Lemma step_Inv s e : Inv s → Inv (step s e).
Proof.
  intros HI. unfold step. destruct e; simpl.
  - by apply register_player_Inv.
  - by apply join_room_Inv.
  - by apply leave_room_Inv.
  - by apply player_move_Inv.
  - by rewrite chat_message_state.
  - by apply (disconnect_Inv s sid).
  - by apply foldl_evict_Inv.
Qed.

Lemma run_Inv evs s : Inv s → Inv (run evs s).
Proof.
  revert s. induction evs as [|e evs IH]; intros s HI; simpl; [done|].
  apply IH. by apply step_Inv.
Qed.

Lemma reachable_Inv s : reachable s → Inv s.
Proof. intros [evs ->]. apply run_Inv, Inv_init. Qed.

(* ===================================================================== *)
(** ** Members with a live connection are in the transport room *)
(* ===================================================================== *)

Lemma members_joined_update c c' sid s s' :
  members_joined c s → c ⊆ c' → frame sid s s' →
  (∀ r, sid ∈ members s' r → sid ∉ c' → r ∈ socket_rooms s' sid) →
  members_joined c' s'.
Proof.
  intros Hmj Hc [Fp Fm Fs] Hsid q r Hq Hnc.
  destruct (decide (q = sid)) as [->|Hne]; [by apply Hsid|].
  rewrite Fs by done. apply Hmj; [by apply Fm|]. intros ?. apply Hnc. by apply Hc.
Qed.

Lemma register_player_members_joined c s sid pd now :
  members_joined c s → members_joined c (state_of (register_player s sid pd now)).
Proof.
  intros Hmj. unfold register_player. destruct pd as [pd|]; [|done].
  intros q r. apply Hmj.
Qed.

Lemma join_room_members_joined c s sid roomId now :
  members_joined c s → members_joined c (state_of (join_room s sid roomId now)).
Proof.
  intros Hmj.
  apply (members_joined_update c c sid s); [done|done|apply join_room_frame|].
  destruct (players s !! sid) as [p|] eqn:Hp.
  - rewrite (join_room_registered _ _ _ _ _ Hp). unfold members, socket_rooms; simpl.
    intros r. rewrite elem_of_insert_add, elem_of_rooms_left, lookup_insert_eq. simpl.
    intros [[Hin Hn]|[_ ->]] Hc.
    + apply elem_of_union_r, elem_of_difference. split; [by apply Hmj|].
      unfold left_rooms. destruct (current_room p) as [r0|]; [|set_solver].
      intros ->%elem_of_singleton. by apply Hn.
    + apply elem_of_union_l, elem_of_singleton. done.
  - rewrite (join_room_unregistered _ _ _ _ Hp). simpl. intros r. apply Hmj.
Qed.

Lemma leave_room_members_joined c s sid :
  members_joined c s → members_joined c (state_of (leave_room s sid)).
Proof.
  intros Hmj.
  destruct (players s !! sid) as [p|] eqn:Hp;
    [destruct (current_room p) as [r0|] eqn:Hr|].
  - apply (members_joined_update c c sid s); [done|done|apply leave_room_frame|].
    rewrite (leave_room_in_room _ _ _ _ Hp Hr). unfold members, socket_rooms; simpl.
    intros r. rewrite elem_of_drop_member, lookup_insert_eq. simpl.
    intros [Hin Hn] Hc. apply elem_of_difference. split; [by apply Hmj|].
    intros ->%elem_of_singleton. by apply Hn.
  - rewrite leave_room_no_room; [done|]. intros p' Hp'. congruence.
  - rewrite leave_room_no_room; [done|]. intros p' Hp'. congruence.
Qed.

Lemma player_move_members_joined c s sid data now :
  members_joined c s → members_joined c (state_of (player_move s sid data now)).
Proof.
  intros Hmj.
  destruct (player_move_state s sid data now) as [->|(p & px & py & Hp & ->)];
    [done|].
  intros q r'. apply Hmj.
Qed.

Lemma disconnect_members_joined c s sid :
  members_joined c s →
  members_joined ({[sid]} ∪ c) (state_of (handle s (EvDisconnect sid))).
Proof.
  intros Hmj.
  apply (members_joined_update c _ sid s);
    [done|set_solver|apply disconnect_frame|].
  intros r _ Hn. exfalso. apply Hn. set_solver.
Qed.

Lemma evict_members_joined c now s entry :
  members_joined c s → members_joined c (evict now s entry).
Proof.
  intros Hmj. destruct entry as [k p].
  apply (members_joined_update c c k s); [done|done|apply evict_frame|].
  destruct (decide (stale now p)) as [Hs|Hs].
  - rewrite (evict_stale _ _ _ _ Hs). unfold members, socket_rooms; simpl.
    intros r. rewrite elem_of_rooms_left. intros [Hin _] Hc. by apply Hmj.
  - rewrite (evict_fresh _ _ _ _ Hs). intros r. apply Hmj.
Qed.

Lemma foldl_evict_members_joined c now l s :
  members_joined c s → members_joined c (foldl (evict now) s l).
Proof.
  revert s. induction l as [|entry l IH]; intros s Hmj; simpl; [done|].
  apply IH. by apply evict_members_joined.
Qed.

Lemma closed_cons e evs :
  closed (e :: evs) = match e with EvDisconnect sid => {[sid]} ∪ closed evs | _ => closed evs end.
Proof. done. Qed.

Lemma step_members_joined c s e :
  members_joined c s →
  members_joined (match e with EvDisconnect sid => {[sid]} ∪ c | _ => c end) (step s e).
Proof.
  intros Hmj. unfold step. destruct e; simpl.
  - by apply register_player_members_joined.
  - by apply join_room_members_joined.
  - by apply leave_room_members_joined.
  - by apply player_move_members_joined.
  - by rewrite chat_message_state.
  - by apply (disconnect_members_joined c s sid).
  - by apply foldl_evict_members_joined.
Qed.

Lemma members_joined_mono c c' s :
  members_joined c s → c ⊆ c' → members_joined c' s.
Proof. intros Hmj Hc q r Hq Hn. apply Hmj; [done|]. intros ?. apply Hn. by apply Hc. Qed.

Lemma run_members_joined_from evs c s :
  members_joined c s → members_joined (closed evs ∪ c) (run evs s).
Proof.
  revert c s. induction evs as [|e evs IH]; intros c s Hmj.
  - simpl. eapply members_joined_mono; [done|]. set_solver.
  - change (run (e :: evs) s) with (run evs (step s e)).
    eapply members_joined_mono; [apply IH, (step_members_joined c s e Hmj)|].
    rewrite closed_cons. intros q.
    destruct e; rewrite !elem_of_union; tauto.
Qed.

Lemma run_members_joined evs : members_joined (closed evs) (run evs init).
Proof.
  eapply members_joined_mono;
    [apply (run_members_joined_from evs ∅)|by rewrite union_empty_r_L].
  intros q r. unfold members. simpl. rewrite lookup_empty. simpl.
  by intros ?%not_elem_of_nil.
Qed.

(* ===================================================================== *)
(** ** The reaper *)
(* ===================================================================== *)

Lemma evict_players now s k p q :
  players (evict now s (k, p)) !! q =
    if decide (q = k ∧ stale now p) then None else players s !! q.
Proof.
  destruct (decide (stale now p)) as [Hs|Hs].
  - rewrite (evict_stale _ _ _ _ Hs). simpl. destruct (decide (q = k)) as [->|Hne].
    + rewrite lookup_delete_eq. by rewrite decide_True.
    + rewrite lookup_delete_ne by done. rewrite decide_False; [done|]. by intros [? _].
  - rewrite (evict_fresh _ _ _ _ Hs). rewrite decide_False; [done|]. by intros [_ ?].
Qed.

Lemma evict_members now s k p q r :
  q ∈ members (evict now s (k, p)) r ↔
  q ∈ members s r ∧ ¬ (q = k ∧ stale now p ∧ current_room p = Some r).
Proof.
  destruct (decide (stale now p)) as [Hs|Hs].
  - rewrite (evict_stale _ _ _ _ Hs). unfold members; simpl.
    rewrite elem_of_rooms_left. split; intros [? Hn]; split; try done.
    + intros (? & _ & ?). by apply Hn.
    + intros [? ?]. by apply Hn.
  - rewrite (evict_fresh _ _ _ _ Hs). split; [|by intros [? _]].
    intros ?. split; [done|]. by intros (_ & ? & _).
Qed.

Lemma evict_sockets now s entry : sockets (evict now s entry) = sockets s.
Proof.
  destruct entry as [k p]. destruct (decide (stale now p)) as [Hs|Hs].
  - by rewrite (evict_stale _ _ _ _ Hs).
  - by rewrite (evict_fresh _ _ _ _ Hs).
Qed.

Section reaper_loop.
Variable now : Z.

Lemma foldl_evict_sockets l s : sockets (foldl (evict now) s l) = sockets s.
Proof.
  revert s. induction l as [|entry l IH]; intros s; cbn [foldl]; [done|].
  by rewrite IH, evict_sockets.
Qed.

Lemma foldl_evict_absent l s k :
  players s !! k = None → players (foldl (evict now) s l) !! k = None.
Proof.
  revert s. induction l as [|[k' p'] l IH]; intros s Hk; cbn [foldl]; [done|].
  apply IH. rewrite evict_players. by case_decide.
Qed.

Lemma foldl_evict_stale l s k p :
  (k, p) ∈ l → stale now p → players (foldl (evict now) s l) !! k = None.
Proof.
  revert s. induction l as [|[k' p'] l IH]; intros s Hin Hs; cbn [foldl].
  - by apply not_elem_of_nil in Hin.
  - apply elem_of_cons in Hin as [[= <- <-]|Hin]; [|by apply IH].
    apply foldl_evict_absent. rewrite evict_players. by rewrite decide_True.
Qed.

Lemma foldl_evict_fresh l s k :
  (∀ p, (k, p) ∈ l → ¬ stale now p) →
  players (foldl (evict now) s l) !! k = players s !! k.
Proof.
  revert s. induction l as [|[k' p'] l IH]; intros s Hf; cbn [foldl]; [done|].
  rewrite IH.
  - rewrite evict_players. rewrite decide_False; [done|]. intros [-> Hs].
    by apply (Hf p'); [left|].
  - intros p Hin. apply Hf. by right.
Qed.

Lemma foldl_evict_members_sub l s q r :
  q ∈ members (foldl (evict now) s l) r → q ∈ members s r.
Proof.
  revert s. induction l as [|[k' p'] l IH]; intros s; cbn [foldl]; [done|].
  intros Hin%IH. by apply evict_members in Hin as [? _].
Qed.

Lemma foldl_evict_removed l s k p r :
  (k, p) ∈ l → stale now p → current_room p = Some r →
  k ∉ members (foldl (evict now) s l) r.
Proof.
  revert s. induction l as [|[k' p'] l IH]; intros s Hin Hs Hr; cbn [foldl].
  - by apply not_elem_of_nil in Hin.
  - apply elem_of_cons in Hin as [[= <- <-]|Hin]; [|by apply IH].
    intros Hm%foldl_evict_members_sub. apply evict_members in Hm as [_ Hn].
    by apply Hn.
Qed.

Lemma foldl_evict_kept l s q r :
  q ∈ members s r →
  (∀ p, (q, p) ∈ l → stale now p → current_room p ≠ Some r) →
  q ∈ members (foldl (evict now) s l) r.
Proof.
  revert s. induction l as [|[k' p'] l IH]; intros s Hq Hf; cbn [foldl]; [done|].
  apply IH.
  - apply evict_members. split; [done|]. intros (-> & Hs & Hr).
    by apply (Hf p'); [left| |].
  - intros p Hin. apply Hf. by right.
Qed.

Lemma foldl_evict_nonempty l s :
  rooms_nonempty s → rooms_nonempty (foldl (evict now) s l).
Proof.
  revert s. induction l as [|[k p] l IH]; intros s Hne; cbn [foldl]; [done|].
  apply IH. destruct (decide (stale now p)) as [Hs|Hs].
  - rewrite (evict_stale _ _ _ _ Hs). intros r' ms'. simpl.
    by apply rooms_left_nonempty.
  - by rewrite (evict_fresh _ _ _ _ Hs).
Qed.
End reaper_loop.

Lemma reaper_members s now q r :
  q ∈ members (state_of (reaper s now)) r ↔
  q ∈ members s r
  ∧ ¬ ∃ p, players s !! q = Some p ∧ stale now p ∧ current_room p = Some r.
Proof.
  unfold reaper. simpl. split.
  - intros Hin. split; [by eapply foldl_evict_members_sub|].
    intros (p & Hp & Hs & Hr).
    by apply (foldl_evict_removed now (map_to_list (players s)) s q p r);
      [apply elem_of_map_to_list| | |].
  - intros [Hin Hn]. apply foldl_evict_kept; [done|].
    intros p Hp%elem_of_map_to_list Hs Hr. apply Hn. by exists p.
Qed.

Lemma reaper_players s now k :
  players (state_of (reaper s now)) !! k =
    match players s !! k with
    | Some p => if decide (stale now p) then None else Some p
    | None => None
    end.
Proof.
  unfold reaper. simpl. destruct (players s !! k) as [p|] eqn:Hp.
  - destruct (decide (stale now p)) as [Hs|Hs].
    + apply (foldl_evict_stale now _ s k p); [by apply elem_of_map_to_list|done].
    + rewrite foldl_evict_fresh; [done|].
      intros p' Hp'%elem_of_map_to_list. congruence.
  - by apply foldl_evict_absent.
Qed.

(* ===================================================================== *)
(** ** Clamping of coordinates *)
(* ===================================================================== *)

Lemma clamp_eq hi v n :
  ToNumber (js_or v (JsNum (JsFinite 0))) = Some n →
  clamp hi v = Some (Math_max (JsFinite 0) (Math_min (JsFinite hi) n)).
Proof. intros Hn. unfold clamp. by rewrite Hn. Qed.

Lemma clamp_None hi v :
  clamp hi v = None ↔ conversion_throws (js_or v (JsNum (JsFinite 0))) = true.
Proof.
  unfold clamp, ToNumber.
  destruct (conversion_throws (js_or v (JsNum (JsFinite 0)))); split; done.
Qed.

Lemma Math_max_min_in_range hi m :
  (0 <= hi)%Q → m ≠ JsNaN →
  in_range hi (Math_max (JsFinite 0) (Math_min (JsFinite hi) m)).
Proof.
  intros Hhi Hm. destruct m as [| | |q]; [done|..]; simpl.
  - assert (Qle_bool 0 hi = true) as -> by (by apply Qle_bool_iff). simpl.
    split; [done|apply Qle_refl].
  - split; [apply Qle_refl|done].
  - destruct (Qle_bool hi q) eqn:Hle; simpl.
    + assert (Qle_bool 0 hi = true) as -> by (by apply Qle_bool_iff). simpl.
      split; [done|apply Qle_refl].
    + assert (¬ (hi <= q)%Q) as Hlt by (rewrite <- Qle_bool_iff; congruence).
      destruct (Qle_bool 0 q) eqn:Hq; simpl.
      * apply Qle_bool_iff in Hq. split; [done|]. lra.
      * split; [apply Qle_refl|done].
Qed.

(** Whatever number arrives, [NaN] and the infinities included, the clamped
    value is within the bound. *)
Lemma clamp_number_in_range hi n :
  (0 <= hi)%Q → ∃ m, clamp hi (JsNum n) = Some m ∧ in_range hi m.
Proof.
  intros Hhi. unfold clamp, js_or.
  destruct (ToBoolean (JsNum n)) eqn:Hb.
  - change (ToNumber (JsNum n)) with (Some n). eexists. split; [done|].
    apply Math_max_min_in_range; [done|]. by destruct n.
  - change (ToNumber (JsNum (JsFinite 0))) with (Some (JsFinite 0)).
    eexists. split; [done|]. by apply Math_max_min_in_range.
Qed.

(** A missing field, [null] and the booleans are clamped as well. *)
Lemma clamp_falsy hi v :
  ToBoolean v = false → clamp hi v = clamp hi (JsNum (JsFinite 0)).
Proof. intros Hv. unfold clamp, js_or. by rewrite Hv. Qed.

Lemma clamp_zero hi :
  (0 <= hi)%Q → ∃ q, clamp hi (JsNum (JsFinite 0)) = Some (JsFinite q) ∧ (q == 0)%Q.
Proof.
  intros Hhi. unfold clamp. simpl. destruct (Qle_bool hi 0) eqn:Hle; simpl.
  - assert (Qle_bool 0 hi = true) as -> by (by apply Qle_bool_iff). simpl.
    apply Qle_bool_iff in Hle. exists hi. split; [done|]. lra.
  - exists 0%Q. done.
Qed.

Lemma clamp_above hi q :
  (0 <= hi)%Q → (hi <= q)%Q → clamp hi (JsNum (JsFinite q)) = Some (JsFinite hi).
Proof.
  intros Hhi Hq. unfold clamp, js_or. simpl.
  destruct (Qeq_bool q 0) eqn:Hz; simpl.
  - apply Qeq_bool_iff in Hz.
    assert (Qle_bool hi 0 = true) as -> by (apply Qle_bool_iff; lra). simpl.
    by assert (Qle_bool 0 hi = true) as -> by (by apply Qle_bool_iff).
  - assert (Qle_bool hi q = true) as -> by (by apply Qle_bool_iff). simpl.
    by assert (Qle_bool 0 hi = true) as -> by (by apply Qle_bool_iff).
Qed.

Lemma clamp_below hi q :
  (0 < hi)%Q → (q < 0)%Q → clamp hi (JsNum (JsFinite q)) = Some (JsFinite 0).
Proof.
  intros Hhi Hq. unfold clamp, js_or. simpl.
  destruct (Qeq_bool q 0) eqn:Hz; simpl.
  - apply Qeq_bool_iff in Hz. lra.
  - destruct (Qle_bool hi q) eqn:Hle; [apply Qle_bool_iff in Hle; lra|]. simpl.
    destruct (Qle_bool 0 q) eqn:Hle0; [apply Qle_bool_iff in Hle0; lra|]. done.
Qed.

Lemma clamp_within hi q :
  (0 < q)%Q → (q < hi)%Q → clamp hi (JsNum (JsFinite q)) = Some (JsFinite q).
Proof.
  intros Hq Hhi. unfold clamp, js_or. simpl.
  destruct (Qeq_bool q 0) eqn:Hz; simpl.
  - apply Qeq_bool_iff in Hz. lra.
  - destruct (Qle_bool hi q) eqn:Hle; [apply Qle_bool_iff in Hle; lra|]. simpl.
    by assert (Qle_bool 0 q = true) as -> by (apply Qle_bool_iff; lra).
Qed.

(** A truthy value that converts to [NaN] is clamped to [NaN]. *)
Lemma clamp_NaN hi v :
  ToBoolean v = true → ToNumber v = Some JsNaN → clamp hi v = Some JsNaN.
Proof. intros Hb Hn. unfold clamp, js_or. by rewrite Hb, Hn. Qed.

Lemma in_range_not_NaN hi : ¬ in_range hi JsNaN.
Proof. intros []. Qed.

(* ===================================================================== *)
(** ** Slicing of strings *)
(* ===================================================================== *)

Lemma slice0_short n s : (String.length s ≤ n)%nat → slice0 n s = s.
Proof.
  unfold slice0. revert n. induction s as [|c s IH]; intros n Hn; simpl in *.
  - by destruct n.
  - destruct n as [|n]; [lia|]. simpl. f_equal. apply IH. lia.
Qed.

Lemma slice0_long n s :
  (n ≤ String.length s)%nat →
  String.length (slice0 n s) = n ∧ ∃ rest, s = slice0 n s +:+ rest.
Proof.
  unfold slice0. revert n. induction s as [|c s IH]; intros n Hn; simpl in *.
  - assert (n = 0%nat) as -> by lia. simpl. split; [done|]. by exists "".
  - destruct n as [|n]; simpl.
    + split; [done|]. by exists (String c s).
    + destruct (IH n) as [Hl [rest Hr]]; [lia|]. split; [by rewrite Hl|].
      exists rest. change (String c s = String c (substring 0 n s +:+ rest)).
      by f_equal.
Qed.

(* ===================================================================== *)
(** ** Properties of the handlers *)
(* ===================================================================== *)

(** C4: a [join-room] event from a socket with no entry in [players] sends
    the error notification to that socket alone and returns the state as it
    was: neither [players] nor [rooms] is changed. *)
Theorem join_room_unregistered_no_mutation s sid roomId now :
  players s !! sid = None →
  handle s (EvJoinRoom sid roomId now) =
    Returned s [mkEmit (ToSocket sid) (ErrorEvent "Player not registered")]
  ∧ registries (step s (EvJoinRoom sid roomId now)) = registries s
  ∧ ∀ q, receives s (ToSocket sid) q ↔ q = sid.
Proof.
  intros Hp. unfold step. simpl. rewrite (join_room_unregistered _ _ _ _ Hp).
  done.
Qed.

Lemma join_room_unregistered_no_mutation_witness :
  players (run lobby init) !! "C" = None
  ∧ handle (run lobby init) (EvJoinRoom "C" "r1" 4) =
      Returned (run lobby init)
               [mkEmit (ToSocket "C") (ErrorEvent "Player not registered")].
Proof.
  split; [reflexivity|].
  apply (join_room_unregistered_no_mutation (run lobby init) "C" "r1" 4).
  reflexivity.
Defined.

(** C10: for a registered player in a room, a [chat-message] event with no
    payload, or whose [message] field is missing or has no [slice] method,
    makes the handler throw: nothing is emitted (no error event), and the
    state, hence both registries, is the one before the event. *)
Theorem chat_message_without_text_throws s sid p r data n1 n2 :
  players s !! sid = Some p → current_room p = Some r →
  data = None ∨ (∃ d, data = Some d ∧ sliceable (data_message d) = false) →
  handle s (EvChatMessage sid data n1 n2) = Threw s []
  ∧ threw (handle s (EvChatMessage sid data n1 n2)) = true
  ∧ registries (step s (EvChatMessage sid data n1 n2)) = registries s.
Proof.
  intros Hp [Hr Ht]%current_room_Some Hd.
  assert (handle s (EvChatMessage sid data n1 n2) = Threw s []) as Hh.
  { simpl. unfold chat_message. rewrite Hp, Hr, Ht.
    destruct Hd as [->|(d & -> & Hs)]; [done|].
    by destruct (data_message d). }
  unfold step. by rewrite Hh.
Qed.

Lemma chat_message_without_text_throws_witness :
  players (run lobby init) !! "A" = Some player_A
  ∧ current_room player_A = Some "r1"
  ∧ handle (run lobby init)
           (EvChatMessage "A" (Some {| data_message := JsUndefined |}) 5 5)
    = Threw (run lobby init) [].
Proof.
  split; [reflexivity|]. split; [reflexivity|].
  apply (chat_message_without_text_throws (run lobby init) "A" player_A "r1"
           (Some {| data_message := JsUndefined |}) 5 5).
  - reflexivity.
  - reflexivity.
  - right. eexists. split; reflexivity.
Defined.

(** C8: for a registered player in a room and any message text, the one
    event emitted carries the whole text when it has at most 200 units, and
    otherwise exactly its first 200 units. *)
Theorem chat_message_truncates s sid p r text num n1 n2 :
  players s !! sid = Some p → current_room p = Some r →
  ∃ sent,
    handle s (EvChatMessage sid (Some {| data_message := JsStr text num |}) n1 n2)
    = Returned s [mkEmit (ToRoom r)
                         (ChatMessage n1 sid (username p) (SlicedStr sent) n2)]
    ∧ ((String.length text ≤ 200)%nat → sent = text)
    ∧ ((200 < String.length text)%nat →
       String.length sent = 200%nat ∧ ∃ rest, text = sent +:+ rest).
Proof.
  intros Hp [Hr Ht]%current_room_Some. exists (slice0 200 text). split; [|split].
  - simpl. unfold chat_message. by rewrite Hp, Hr, Ht.
  - apply slice0_short.
  - intros Hl. apply slice0_long. lia.
Qed.

Lemma chat_message_truncates_witness :
  ∃ sent,
    handle (run lobby init)
           (EvChatMessage "A" (Some {| data_message := JsStr "hello" JsNaN |}) 5 6)
    = Returned (run lobby init)
               [mkEmit (ToRoom "r1")
                       (ChatMessage 5 "A" "Player_A" (SlicedStr sent) 6)]
    ∧ ((String.length "hello" ≤ 200)%nat → sent = "hello")
    ∧ ((200 < String.length "hello")%nat →
       String.length sent = 200%nat ∧ ∃ rest, "hello" = sent +:+ rest).
Proof.
  apply (chat_message_truncates (run lobby init) "A" player_A "r1" "hello" JsNaN 5 6);
    reflexivity.
Defined.

(** A text of 250 units is cut down to its first 200. *)
Example chat_message_long_text :
  emitted (handle (run lobby init)
             (EvChatMessage "A" (Some {| data_message := JsStr (text_of_length 250) JsNaN |}) 5 6))
  = [mkEmit (ToRoom "r1")
            (ChatMessage 5 "A" "Player_A" (SlicedStr (text_of_length 200)) 6)].
Proof. reflexivity. Qed.

Lemma left_notice_target sid p m e :
  e ∈ left_notice sid p m →
  ∃ r, current_room p = Some r ∧ e = mkEmit (ToRoomExcept r sid) (PlayerLeft sid).
Proof.
  unfold left_notice. destruct (current_room p) as [r|]; [|by intros ?%not_elem_of_nil].
  destruct (m !! r) as [ms|]; [|by intros ?%not_elem_of_nil].
  case_decide; [by intros ?%not_elem_of_nil|].
  intros ->%list_elem_of_singleton. by exists r.
Qed.

(** C6: when a socket disconnects, the [disconnect] handler leaves
    [players] and [rooms] in the state that [leave-room] followed by the
    removal of the Player entry leaves them in, and emits the same events
    (the same [player-left] notice, reaching the same sockets); for a socket
    with no Player entry it changes neither registry and emits nothing. *)
Theorem disconnect_is_leave_then_remove s sid :
  let o := handle s (EvDisconnect sid) in
  registries (state_of o) = registries (state_of (disconnect_spec s sid))
  ∧ emitted o = emitted (disconnect_spec s sid)
  ∧ threw o = threw (disconnect_spec s sid)
  ∧ (∀ e q, e ∈ emitted o →
            receives (state_of o) (target e) q ↔
            receives (state_of (leave_room s sid)) (target e) q)
  ∧ (players s !! sid = None →
     registries (state_of o) = registries s ∧ emitted o = []).
Proof.
  intros o. unfold o, disconnect_spec, remove_player, registries.
  destruct (players s !! sid) as [p|] eqn:Hp.
  - rewrite (handle_disconnect_registered _ _ _ Hp).
    destruct (current_room p) as [r|] eqn:Hr.
    + rewrite (leave_room_in_room _ _ _ _ Hp Hr). simpl.
      rewrite delete_insert_eq. unfold rooms_left. rewrite Hr.
      split_and!; try done.
      intros e q (r' & Hr' & ->)%left_notice_target. simpl.
      unfold socket_rooms. simpl. split; intros [Hq Hin]; (split; [done|]).
      * rewrite lookup_delete_ne in Hin by done. by rewrite lookup_insert_ne.
      * rewrite lookup_insert_ne in Hin by done. by rewrite lookup_delete_ne.
    + rewrite leave_room_no_room by (intros p' Hp'; congruence). simpl.
      unfold rooms_left, left_notice. rewrite Hr.
      split_and!; try done. by intros e q ?%not_elem_of_nil.
  - rewrite (handle_disconnect_unregistered _ _ Hp).
    rewrite leave_room_no_room by (intros p' Hp'; congruence). simpl.
    rewrite delete_id by done.
    split_and!; try done. by intros e q ?%not_elem_of_nil.
Qed.

Lemma disconnect_is_leave_then_remove_witness :
  players (run lobby init) !! "C" = None
  ∧ registries (state_of (handle (run lobby init) (EvDisconnect "C")))
    = registries (run lobby init)
  ∧ emitted (handle (run lobby init) (EvDisconnect "C")) = [].
Proof.
  split; [reflexivity|].
  exact (proj2 (proj2 (proj2 (proj2
           (disconnect_is_leave_then_remove (run lobby init) "C")))) eq_refl).
Defined.

(** With A and B in room [r1], A's disconnect notifies the room and leaves
    B alone in it. *)
Example disconnect_notifies_room :
  emitted (handle (run lobby init) (EvDisconnect "A"))
  = [mkEmit (ToRoomExcept "r1" "A") (PlayerLeft "A")]
  ∧ members (step (run lobby init) (EvDisconnect "A")) "r1" = ["B"]
  ∧ players (step (run lobby init) (EvDisconnect "A")) !! "A" = None.
Proof. split_and!; reflexivity. Qed.

(** C2: after any sequence of events (registrations, joins, leaves, moves,
    chats, disconnects and reaper ticks, in any order), a key is present in
    [rooms] iff its member set is non-empty, so a handler that empties a
    member set has deleted the room; and a join by a registered player
    leaves the room present with the joiner among its members. *)
Theorem room_present_iff_nonempty evs :
  let s := run evs init in
  (∀ r, is_Some (rooms s !! r) ↔ members s r ≠ [])
  ∧ (∀ sid roomId now,
       is_Some (players s !! sid) →
       let s' := step s (EvJoinRoom sid roomId now) in
       is_Some (rooms s' !! roomId) ∧ sid ∈ members s' roomId).
Proof.
  assert (∀ s, Inv s → ∀ r, is_Some (rooms s !! r) ↔ members s r ≠ []) as Hiff.
  { intros s HI r. unfold members. split.
    - intros [ms Hms]. rewrite Hms. simpl. by eapply inv_nonempty.
    - destruct (rooms s !! r); [by eexists|done]. }
  intros s. pose proof (run_Inv evs init Inv_init) as HI. split.
  - by apply Hiff.
  - intros sid roomId now [p Hp] s'.
    assert (sid ∈ members s' roomId) as Hin.
    { unfold s', step. simpl. rewrite (join_room_registered _ _ _ _ _ Hp).
      unfold members. simpl. apply elem_of_insert_add. by right. }
    split; [|done]. apply Hiff.
    + by apply step_Inv.
    + intros Hnil. rewrite Hnil in Hin. by apply not_elem_of_nil in Hin.
Qed.

Lemma room_present_iff_nonempty_witness :
  is_Some (players (run lobby init) !! "A")
  ∧ is_Some (rooms (step (run lobby init) (EvJoinRoom "A" "r2" 9)) !! "r2")
  ∧ "A" ∈ members (step (run lobby init) (EvJoinRoom "A" "r2" 9)) "r2".
Proof.
  assert (is_Some (players (run lobby init) !! "A")) as HA by (by eexists).
  split; [exact HA|].
  exact (proj2 (room_present_iff_nonempty lobby) "A" "r2" 9 HA).
Defined.

(** The sole occupant of a room leaves: the room is gone. *)
Example last_leave_deletes_room :
  rooms (run [EvRegisterPlayer "C" anon 0; EvJoinRoom "C" "r2" 1; EvLeaveRoom "C"] init)
  !! "r2" = None.
Proof. reflexivity. Qed.

(** C5: in the state reached by any sequence of events, a [join-room]
    event from a registered player emits, last and in this order, the
    roster ([players-update]) to the joiner alone and then the
    [player-joined] notice to the rest of the room, which reaches every
    other member with a live connection and not the joiner; whatever is
    emitted before is the [player-left] notice for the room left.  The
    roster is made of the entries of the members other than the joiner, and
    has no entry of the joiner. *)
Theorem join_room_roster_before_notice evs sid roomId now p :
  let s := run evs init in
  players s !! sid = Some p →
  ∃ s' pre roster,
    handle s (EvJoinRoom sid roomId now) =
      Returned s'
        (pre ++
         [mkEmit (ToSocket sid) (PlayersUpdate roster);
          mkEmit (ToRoomExcept roomId sid)
                 (PlayerJoined sid (username p) (avatar p) (x p) (y p))])
    ∧ (∀ e, e ∈ pre → payload e = PlayerLeft sid)
    ∧ (∀ q, q ∈ roster ↔
            ∃ k, k ∈ members s' roomId ∧ k ≠ sid ∧ players s' !! k = Some q)
    ∧ (∀ q, q ∈ roster → id q ≠ sid)
    ∧ (∀ q, receives s' (ToSocket sid) q ↔ q = sid)
    ∧ ¬ receives s' (ToRoomExcept roomId sid) sid
    ∧ (∀ q, q ≠ sid → q ∈ members s' roomId → q ∉ closed evs →
            receives s' (ToRoomExcept roomId sid) q).
Proof.
  intros s Hp. pose proof (run_Inv evs init Inv_init) as HI. fold s in HI.
  pose proof (join_room_Inv s sid roomId now HI) as HI'.
  pose proof (join_room_members_joined _ s sid roomId now (run_members_joined evs))
    as Hmj.
  pose proof (join_room_registered s sid roomId now p Hp) as Hj. simpl in Hj.
  rewrite Hj in HI', Hmj. simpl in HI', Hmj.
  eexists _, (left_notice sid p (rooms s)), _. split_and!.
  - simpl. rewrite Hj. by rewrite (inv_keys s HI sid p Hp).
  - by intros e (r & _ & ->)%left_notice_target.
  - intros q. rewrite list_elem_of_omap. split.
    + intros (k & [Hk Hin]%list_elem_of_filter & Hq). by exists k.
    + intros (k & Hin & Hk & Hq). exists k. split; [|done].
      by apply list_elem_of_filter.
  - intros q (k & [Hk _]%list_elem_of_filter & Hq)%list_elem_of_omap.
    by rewrite (inv_keys _ HI' k q Hq).
  - done.
  - by intros [? _].
  - intros q Hne Hq Hc. split; [done|]. by apply Hmj.
Qed.

Lemma join_room_roster_before_notice_witness :
  players (run lobby init) !! "A" = Some player_A
  ∧ ∃ s' pre roster,
    handle (run lobby init) (EvJoinRoom "A" "r2" 9) =
      Returned s'
        (pre ++
         [mkEmit (ToSocket "A") (PlayersUpdate roster);
          mkEmit (ToRoomExcept "r2" "A")
                 (PlayerJoined "A" (username player_A) (avatar player_A)
                               (x player_A) (y player_A))]).
Proof.
  split; [reflexivity|].
  destruct (join_room_roster_before_notice lobby "A" "r2" 9 player_A eq_refl)
    as (s' & pre & roster & H & _).
  by exists s', pre, roster.
Defined.

(** B joins the room A is in: B is sent a roster holding A, then A's side
    of the room is told of B. *)
Example second_player_joins :
  emitted (handle (run [EvRegisterPlayer "A" anon 0; EvJoinRoom "A" "r1" 1;
                        EvRegisterPlayer "B" anon 2] init)
                  (EvJoinRoom "B" "r1" 3))
  = [mkEmit (ToSocket "B") (PlayersUpdate [player_A]);
     mkEmit (ToRoomExcept "r1" "B")
            (PlayerJoined "B" "Player_B" default_avatar (JsFinite 50) (JsFinite 300))].
Proof. reflexivity. Qed.

(** What a reaper tick at time [now] does, in any state.  It emits nothing
    and leaves the transport alone.  Every entry inactive for longer than
    the threshold is taken out of [players], and out of the member set of
    its room when its [room] field passes the test of line 279, that is
    when the key is not the empty string; a room whose member set becomes
    empty is deleted.  An entry within the threshold is kept as it is, and
    so are its memberships.  The member sets lose the evicted players whose
    room key passes the test, and nobody else. *)
Theorem reaper_evicts_silently s now :
  let s' := state_of (reaper s now) in
  emitted (reaper s now) = [] ∧ threw (reaper s now) = false
  ∧ sockets s' = sockets s
  ∧ (∀ k p, players s !! k = Some p → stale now p →
            players s' !! k = None
            ∧ ∀ r, current_room p = Some r → k ∉ members s' r)
  ∧ (∀ k p, players s !! k = Some p → ¬ stale now p →
            players s' !! k = Some p
            ∧ ∀ r, k ∈ members s' r ↔ k ∈ members s r)
  ∧ (∀ k, players s !! k = None → players s' !! k = None)
  ∧ (∀ q r, q ∈ members s' r ↔
            q ∈ members s r
            ∧ ¬ ∃ p, players s !! q = Some p ∧ stale now p ∧ current_room p = Some r)
  ∧ (rooms_nonempty s → ∀ r, is_Some (rooms s' !! r) ↔ members s' r ≠ []).
Proof.
  intros s'. unfold s'. split_and!; try done.
  - apply foldl_evict_sockets.
  - intros k p Hp Hs. split.
    + by rewrite reaper_players, Hp, decide_True.
    + intros r Hr [_ Hn]%reaper_members. apply Hn. by exists p.
  - intros k p Hp Hs. split.
    + by rewrite reaper_players, Hp, decide_False.
    + intros r. rewrite reaper_members. split; [by intros [? _]|]. intros Hin.
      split; [done|]. intros (p' & Hp' & Hs' & _). congruence.
  - intros k Hk. by rewrite reaper_players, Hk.
  - apply reaper_members.
  - intros Hne r. unfold members at 1. split.
    + intros [ms Hms]. rewrite Hms. simpl.
      exact (foldl_evict_nonempty now _ s Hne r ms Hms).
    + destruct (rooms _ !! r); [by eexists|done].
Qed.

Lemma reaper_evicts_silently_witness :
  players (run lobby init) !! "A" = Some player_A
  ∧ stale 400000 player_A
  ∧ players (state_of (reaper (run lobby init) 400000)) !! "A" = None.
Proof.
  assert (stale 400000 player_A) as Hs by (unfold stale, timeout; simpl; lia).
  split; [reflexivity|]. split; [exact Hs|].
  apply (proj1 (proj1 (proj2 (proj2 (proj2 (reaper_evicts_silently (run lobby init) 400000))))
                      "A" player_A eq_refl Hs)).
Defined.

(** C7: the reaper does not take every evicted player out of its room.  A
    player who joined the room whose key is the empty string and has been
    inactive for longer than the threshold is removed from [players] by the
    tick, but stays in the member set of its room, and the room is not
    deleted although no player is left: the test [if (player.room)] of line
    279 takes the empty key for no room at all. *)
Theorem reaper_skips_empty_key_room :
  let s := run [EvRegisterPlayer "A" anon 0; EvJoinRoom "A" "" 1] init in
  let s' := step s (EvReaperTick 400000) in
  reachable s
  ∧ (∃ p, players s !! "A" = Some p ∧ room p = Some "" ∧ stale 400000 p)
  ∧ members s "" = ["A"]
  ∧ emitted (handle s (EvReaperTick 400000)) = []
  ∧ players s' = ∅
  ∧ members s' "" = ["A"]
  ∧ rooms s' !! "" = Some ["A"].
Proof.
  intros s s'. split_and!; try reflexivity.
  - by eexists.
  - eexists. split; [reflexivity|]. split; [reflexivity|].
    unfold stale, timeout. simpl. lia.
Qed.

(** The only occupant of a room goes idle: after the tick neither the
    player nor the room exists. *)
Example idle_sole_occupant_reaped :
  let s := run [EvRegisterPlayer "D" anon 0; EvJoinRoom "D" "r3" 1;
                EvReaperTick 300002] init in
  players s !! "D" = None ∧ rooms s !! "r3" = None.
Proof. split; reflexivity. Qed.

Example active_player_not_reaped :
  let s := run [EvRegisterPlayer "D" anon 0; EvJoinRoom "D" "r3" 1;
                EvReaperTick 300001] init in
  is_Some (players s !! "D") ∧ members s "r3" = ["D"].
Proof. split; [by eexists|reflexivity]. Qed.

(** C9: in the state reached by any sequence of events, for a registered
    player [sid] in room [r]: a chat message is emitted once, to the whole
    room ([io.to]), and reaches the sender, every player whose room is [r]
    and every member of [r] whose connection has not ended (the handler
    changes nothing, and throws after the emit only when the log line
    cannot print the text); a move whose two coordinates convert is emitted
    once, with the clamped coordinates, to the room but the sender
    ([socket.to]), and reaches the same sockets except the sender, who does
    not get it; a move with a coordinate whose conversion throws emits
    nothing and changes nothing. *)
Theorem room_broadcast_recipients evs sid p r :
  let s := run evs init in
  players s !! sid = Some p → current_room p = Some r →
  (∀ d text n1 n2,
     slice_200 (data_message d) = Some text →
     let o := handle s (EvChatMessage sid (Some d) n1 n2) in
     emitted o = [mkEmit (ToRoom r) (ChatMessage n1 sid (username p) text n2)]
     ∧ state_of o = s
     ∧ threw o = sliced_throws text
     ∧ receives s (ToRoom r) sid
     ∧ (∀ q p', players s !! q = Some p' → room p' = Some r → receives s (ToRoom r) q)
     ∧ (∀ q, q ∈ members s r → q ∉ closed evs → receives s (ToRoom r) q))
  ∧ (∀ d now,
     let o := handle s (EvPlayerMove sid (Some d) now) in
     (∀ px py,
        clamp 750 (data_x d) = Some px → clamp 350 (data_y d) = Some py →
        threw o = false
        ∧ emitted o = [mkEmit (ToRoomExcept r sid) (PlayerMoved sid px py now)])
     ∧ (clamp 750 (data_x d) = None ∨ clamp 350 (data_y d) = None →
        o = Threw s [])
     ∧ ¬ receives (state_of o) (ToRoomExcept r sid) sid
     ∧ (∀ q p', q ≠ sid → players (state_of o) !! q = Some p' → room p' = Some r →
                receives (state_of o) (ToRoomExcept r sid) q)
     ∧ (∀ q, q ≠ sid → q ∈ members (state_of o) r → q ∉ closed evs →
             receives (state_of o) (ToRoomExcept r sid) q)).
Proof.
  intros s Hp Hcur. pose proof Hcur as [Hr Ht]%current_room_Some.
  pose proof (run_Inv evs init Inv_init) as HI.
  pose proof (run_members_joined evs) as Hmj. fold s in HI, Hmj. split.
  - intros d text n1 n2 Hsl o.
    assert (o = (if sliced_throws text then Threw else Returned) s
                  [mkEmit (ToRoom r) (ChatMessage n1 sid (username p) text n2)])
      as ->.
    { unfold o. simpl. unfold chat_message. rewrite Hp, Hr, Ht, Hsl.
      by destruct (sliced_throws text). }
    split_and!.
    + by destruct (sliced_throws text).
    + by destruct (sliced_throws text).
    + by destruct (sliced_throws text).
    + by apply (inv_joined s HI sid p).
    + intros q p' Hq Hr'. by apply (inv_joined s HI q p').
    + intros q Hq Hc. by apply Hmj.
  - intros d now o.
    assert (o = match clamp 750 (data_x d), clamp 350 (data_y d) with
                | Some px, Some py =>
                    Returned
                      (set_players (λ m, <[sid := with_position p px py now]> m) s)
                      [mkEmit (ToRoomExcept r sid) (PlayerMoved sid px py now)]
                | _, _ => Threw s []
                end) as Ho.
    { unfold o. simpl. unfold player_move. by rewrite Hp, Hr, Ht. }
    assert (∀ q, players (state_of o) !! q = players s !! q ∨ q = sid) as Hpl.
    { intros q. rewrite Ho.
      destruct (clamp 750 (data_x d)), (clamp 350 (data_y d)); simpl; auto.
      destruct (decide (q = sid)); [by right|left]. by rewrite lookup_insert_ne. }
    assert (rooms (state_of o) = rooms s ∧ sockets (state_of o) = sockets s)
      as [Hro Hso].
    { rewrite Ho. by destruct (clamp 750 (data_x d)), (clamp 350 (data_y d)). }
    split_and!.
    + intros px py Hx Hy. rewrite Ho, Hx, Hy. done.
    + intros [Hx|Hy]; rewrite Ho.
      * by rewrite Hx.
      * rewrite Hy. by destruct (clamp 750 (data_x d)).
    + by intros [? _].
    + intros q p' Hne Hq Hr'. split; [done|].
      destruct (Hpl q) as [Hq'|]; [|done]. rewrite Hq' in Hq.
      unfold socket_rooms. rewrite Hso. by apply (inv_joined s HI q p').
    + intros q Hne Hq Hc. split; [done|].
      unfold socket_rooms. rewrite Hso. apply Hmj; [|done].
      unfold members in *. by rewrite Hro in Hq.
Qed.

Lemma room_broadcast_recipients_witness :
  players (run lobby init) !! "A" = Some player_A
  ∧ current_room player_A = Some "r1"
  ∧ receives (run lobby init) (ToRoom "r1") "A"
  ∧ ¬ receives (state_of (handle (run lobby init)
                                 (EvPlayerMove "A" (Some (mkMoveData JsNull JsNull)) 7)))
               (ToRoomExcept "r1" "A") "A".
Proof.
  pose proof (room_broadcast_recipients lobby "A" player_A "r1" eq_refl eq_refl)
    as [Hchat Hmove].
  split; [reflexivity|]. split; [reflexivity|]. split.
  - exact (proj1 (proj2 (proj2 (proj2
             (Hchat {| data_message := JsStr "hi" JsNaN |}
                    (SlicedStr "hi") 5 6 eq_refl))))).
  - exact (proj1 (proj2 (proj2 (Hmove (mkMoveData JsNull JsNull) 7)))).
Defined.

(** A coordinate object with a [toString] of its own: the conversion
    throws, nothing is sent and the position is kept. *)
Example move_with_unconvertible_coordinate :
  handle (run lobby init)
         (EvPlayerMove "A" (Some (mkMoveData JsObjectWithToString (JsNum (JsFinite 5)))) 7)
  = Threw (run lobby init) [].
Proof. reflexivity. Qed.

(** A says something and then moves, B being in the same room: the chat
    goes to the whole room, the move to the room without A. *)
Example chat_then_move :
  emitted (handle (run lobby init)
                  (EvChatMessage "A" (Some {| data_message := JsStr "hi" JsNaN |}) 5 6))
  = [mkEmit (ToRoom "r1") (ChatMessage 5 "A" "Player_A" (SlicedStr "hi") 6)]
  ∧ emitted (handle (run lobby init)
                    (EvPlayerMove "A" (Some (mkMoveData (JsNum (JsFinite 9999))
                                                        (JsNum (JsFinite (-50))))) 7))
  = [mkEmit (ToRoomExcept "r1" "A") (PlayerMoved "A" (JsFinite 750) (JsFinite 0) 7)].
Proof. split; reflexivity. Qed.

(** C1: the correspondence between the [room] field and the member sets is
    lost when a player registers again while in a room.  After A registers,
    joins [r1] and registers again, A's [room] is [null] although A is
    still in the member set of [r1]; when A then joins [r2], A is in the
    member sets of both rooms. *)
Theorem reregistration_breaks_room_membership :
  let s1 := run reregistration init in
  let s2 := run (reregistration ++ [EvJoinRoom "A" "r2" 3]) init in
  reachable s1
  ∧ room <$> players s1 !! "A" = Some None
  ∧ members s1 "r1" = ["A"]
  ∧ ¬ room_matches_membership s1
  ∧ reachable s2
  ∧ room <$> players s2 !! "A" = Some (Some "r2")
  ∧ members s2 "r1" = ["A"] ∧ members s2 "r2" = ["A"]
  ∧ ¬ room_matches_membership s2.
Proof.
  intros s1 s2.
  assert (members s1 "r1" = ["A"]) as H1 by reflexivity.
  assert (members s2 "r1" = ["A"]) as H21 by reflexivity.
  assert (members s2 "r2" = ["A"]) as H22 by reflexivity.
  split_and!; try reflexivity.
  - by eexists.
  - intros Hinv.
    destruct (players s1 !! "A") as [p|] eqn:Hp; [|by vm_compute in Hp].
    assert (room p = None) as Hnone by (vm_compute in Hp; by injection Hp as <-).
    apply (Hinv "A" p Hp); [|done].
    exists "r1". split; [rewrite H1; by left|].
    intros r' Hr'. destruct (decide (r' = "r1")) as [->|Hne]; [done|].
    exfalso. unfold members in Hr'.
    assert (rooms s1 = {["r1" := ["A"]]}) as Hrooms by (vm_compute; reflexivity).
    rewrite Hrooms, lookup_singleton_ne in Hr' by done.
    by apply not_elem_of_nil in Hr'.
  - by eexists.
  - intros Hinv.
    destruct (players s2 !! "A") as [p|] eqn:Hp; [|by vm_compute in Hp].
    assert (room p = Some "r2") as Hr by (vm_compute in Hp; by injection Hp as <-).
    destruct (Hinv "A" p Hp) as [Hex _].
    destruct Hex as (r & _ & Huniq); [by rewrite Hr|].
    assert ("r1" = r) as E1 by (apply Huniq; rewrite H21; by left).
    assert ("r2" = r) as E2 by (apply Huniq; rewrite H22; by left).
    congruence.
Qed.

(** The half of the correspondence that does hold in every reachable
    state: a player whose [room] field is set is in the member set of that
    room, and its socket is in the transport room. *)
Lemma room_field_is_membership s k p r :
  reachable s → players s !! k = Some p → room p = Some r →
  k ∈ members s r ∧ r ∈ socket_rooms s k.
Proof.
  intros HI%reachable_Inv Hp Hr. split.
  - by apply (inv_member s HI k p).
  - by apply (inv_joined s HI k p).
Qed.

(** *** When the correspondence does hold *)

Lemma truthy_nonempty (r : string) : r ≠ "" → truthy r = true.
Proof. intros H. unfold truthy. apply negb_true_iff. by apply String.eqb_neq. Qed.

Lemma membership_is_room_update sid s s' :
  membership_is_room s → frame sid s s' →
  (∀ r, sid ∈ members s' r → ∃ p, players s' !! sid = Some p ∧ room p = Some r) →
  (∀ p r, players s' !! sid = Some p → room p = Some r → truthy r = true) →
  membership_is_room s'.
Proof.
  intros [Hm Ht] [Fp Fm Fs] Hsid Htr. split.
  - intros k r Hk. destruct (decide (k = sid)) as [->|Hne]; [by apply Hsid|].
    rewrite Fp by done. apply Hm. by apply Fm.
  - intros k p r Hp Hr. destruct (decide (k = sid)) as [->|Hne]; [by eapply Htr|].
    rewrite Fp in Hp by done. by eapply Ht.
Qed.

Lemma membership_current_room s k p r :
  membership_is_room s → players s !! k = Some p → room p = Some r →
  current_room p = Some r.
Proof. intros [_ Ht] Hp Hr. apply current_room_Some. split; [done|]. by eapply Ht. Qed.

Lemma step_membership_is_room s e :
  membership_is_room s → tidy_event s e → membership_is_room (step s e).
Proof.
  intros HM Htidy. pose proof HM as [Hm Ht]. unfold step.
  destruct e as [sid pd now|sid roomId now|sid|sid data now|sid data n1 n2|sid|now];
    simpl in *.
  - (* register-player *)
    apply (membership_is_room_update sid s); [done|apply register_player_frame|..];
      unfold register_player; destruct pd as [pd|]; simpl.
    + intros r (p & Hp & Hr)%Hm. rewrite (Htidy p Hp) in Hr. done.
    + intros r. apply Hm.
    + rewrite lookup_insert_eq. by intros p r [= <-].
    + intros p r. apply Ht.
  - (* join-room *)
    apply (membership_is_room_update sid s); [done|apply join_room_frame|..];
      destruct (players s !! sid) as [p|] eqn:Hp.
    + rewrite (join_room_registered _ _ _ _ _ Hp). unfold members. simpl.
      intros r. rewrite elem_of_insert_add, elem_of_rooms_left, lookup_insert_eq.
      intros [[Hin Hn]|[_ ->]]; [|by eexists].
      exfalso. apply Hn. split; [done|].
      destruct (Hm sid r Hin) as (p' & Hp' & Hr').
      rewrite Hp in Hp'. injection Hp' as <-.
      by apply (membership_current_room s sid).
    + rewrite (join_room_unregistered _ _ _ _ Hp). apply Hm.
    + rewrite (join_room_registered _ _ _ _ _ Hp). simpl. rewrite lookup_insert_eq.
      intros p' r [= <-] [= <-]. by apply truthy_nonempty.
    + rewrite (join_room_unregistered _ _ _ _ Hp). simpl. by rewrite Hp.
  - (* leave-room *)
    destruct (players s !! sid) as [p|] eqn:Hp;
      [destruct (current_room p) as [r0|] eqn:Hr0|].
    + apply (membership_is_room_update sid s); [done|apply leave_room_frame|..];
        rewrite (leave_room_in_room _ _ _ _ Hp Hr0); unfold members; simpl.
      * intros r. rewrite elem_of_drop_member. intros [Hin Hn]. exfalso.
        apply Hn. split; [done|].
        destruct (Hm sid r Hin) as (p' & Hp' & Hr').
        rewrite Hp in Hp'. injection Hp' as <-.
        apply current_room_Some in Hr0 as [Hr0 _]. congruence.
      * rewrite lookup_insert_eq. by intros p' r [= <-].
    + rewrite leave_room_no_room; [done|]. intros p' Hp'. congruence.
    + rewrite leave_room_no_room; [done|]. intros p' Hp'. congruence.
  - (* player-move *)
    destruct (player_move_state s sid data now) as [->|(p & px & py & Hp & ->)];
      [done|].
    split; simpl.
    + intros k r (p' & Hp' & Hr')%Hm. destruct (decide (k = sid)) as [->|Hne].
      * rewrite lookup_insert_eq. eexists. split; [done|]. simpl. congruence.
      * rewrite lookup_insert_ne by done. by exists p'.
    + intros k p' r. destruct (decide (k = sid)) as [->|Hne].
      * rewrite lookup_insert_eq. intros [= <-]. simpl. by apply (Ht sid p).
      * rewrite lookup_insert_ne by done. apply Ht.
  - (* chat-message *)
    by rewrite chat_message_state.
  - (* disconnect *)
    apply (membership_is_room_update sid s); [done|apply disconnect_frame|..];
      change (disconnect (socket_close sid s) sid) with (handle s (EvDisconnect sid));
      destruct (players s !! sid) as [p|] eqn:Hp.
    + rewrite (handle_disconnect_registered _ _ _ Hp). unfold members. simpl.
      intros r. rewrite elem_of_rooms_left. intros [Hin Hn]. exfalso.
      apply Hn. split; [done|].
      destruct (Hm sid r Hin) as (p' & Hp' & Hr').
      rewrite Hp in Hp'. injection Hp' as <-.
      by apply (membership_current_room s sid).
    + rewrite (handle_disconnect_unregistered _ _ Hp). apply Hm.
    + rewrite (handle_disconnect_registered _ _ _ Hp). simpl. by rewrite lookup_delete_eq.
    + rewrite (handle_disconnect_unregistered _ _ Hp). simpl. by rewrite Hp.
  - (* reaper tick *)
    change (foldl (evict now) s (map_to_list (players s)))
      with (state_of (reaper s now)).
    split.
    + intros k r [Hin Hn]%reaper_members.
      destruct (Hm k r Hin) as (p & Hp & Hr). exists p. split; [|done].
      rewrite reaper_players, Hp. rewrite decide_False; [done|].
      intros Hs. apply Hn. exists p. split_and!; [done..|].
      by apply (membership_current_room s k).
    + intros k p r. rewrite reaper_players.
      destruct (players s !! k) as [p'|] eqn:Hp'; [|done].
      case_decide; [done|]. intros [= <-]. by eapply Ht.
Qed.

Lemma run_membership_is_room evs s :
  membership_is_room s → tidy s evs → membership_is_room (run evs s).
Proof.
  revert s. induction evs as [|e evs IH]; intros s HM Ht; [done|].
  destruct Ht as [He Hrest]. apply IH; [|done]. by apply step_membership_is_room.
Qed.

(** X3: without a second registration while in a room, and without the
    empty room key, the [room] field and the member sets do correspond: in
    the state reached, a player's [room] field is set iff the player is in
    the member set of exactly one room. *)
Lemma tidy_run_room_matches_membership evs :
  tidy init evs → room_matches_membership (run evs init).
Proof.
  intros Ht. pose proof (run_Inv evs init Inv_init) as HI.
  assert (membership_is_room init) as HM0.
  { split; intros k; simpl; [|by rewrite lookup_empty].
    intros r. unfold members. simpl. rewrite lookup_empty. simpl.
    by intros ?%not_elem_of_nil. }
  pose proof (run_membership_is_room evs init HM0 Ht) as [Hm _].
  intros k p Hp. split.
  - destruct (room p) as [r|] eqn:Hr; [intros _|done].
    exists r. split; [by apply (inv_member _ HI k p)|].
    intros r' (p' & Hp' & Hr')%Hm. congruence.
  - intros (r & (p' & Hp' & Hr')%Hm & _). congruence.
Qed.

(** A room whose key is the empty string is never left: the handlers take
    the falsy key for "no room". *)
Example empty_key_room_is_not_left :
  let s := run [EvRegisterPlayer "A" anon 0; EvJoinRoom "A" "" 1;
                EvJoinRoom "A" "r1" 2; EvLeaveRoom "A"] init in
  members s "" = ["A"] ∧ rooms s !! "r1" = None.
Proof. split; reflexivity. Qed.

(** A coordinate that converts to a number once defaulted is clamped
    within the bound.  Numbers of any size, [NaN], the infinities, a missing
    field, [null] and the booleans all do. *)
Lemma clamp_in_range hi v n :
  (0 <= hi)%Q → ToNumber (js_or v (JsNum (JsFinite 0))) = Some n → n ≠ JsNaN →
  ∃ m, clamp hi v = Some m ∧ in_range hi m.
Proof.
  intros Hhi Hv Hn. rewrite (clamp_eq _ _ _ Hv). eexists. split; [done|].
  by apply Math_max_min_in_range.
Qed.

Lemma primitive_converts v :
  match v with
  | JsStr _ _ | JsArr _ _ | JsObject | JsObjectWithToString => False
  | _ => True
  end →
  ∃ n, ToNumber (js_or v (JsNum (JsFinite 0))) = Some n ∧ n ≠ JsNaN.
Proof.
  unfold js_or. destruct v as [| |[]|[| | |q]| | | |]; simpl; try done;
    try (by eexists).
  destruct (Qeq_bool q 0); by eexists.
Qed.

(** X25: for a registered player in a room, coordinates that convert to a
    number once defaulted are stored within the playfield, [x] in
    [[0, 750]] and [y] in [[0, 350]]. *)
Lemma player_move_numbers_clamped s sid p r d now nx ny :
  players s !! sid = Some p → current_room p = Some r →
  ToNumber (js_or (data_x d) (JsNum (JsFinite 0))) = Some nx → nx ≠ JsNaN →
  ToNumber (js_or (data_y d) (JsNum (JsFinite 0))) = Some ny → ny ≠ JsNaN →
  ∃ p', players (step s (EvPlayerMove sid (Some d) now)) !! sid = Some p'
        ∧ in_range 750 (x p') ∧ in_range 350 (y p').
Proof.
  intros Hp [Hr Ht]%current_room_Some Hx Hnx Hy Hny. unfold step. simpl.
  unfold player_move. rewrite Hp, Hr, Ht.
  rewrite (clamp_eq _ _ _ Hx), (clamp_eq _ _ _ Hy). simpl.
  rewrite lookup_insert_eq. eexists. split; [done|]. simpl.
  split; by apply Math_max_min_in_range.
Qed.

(** X26: for a registered player in a room, a truthy [x] that converts to
    [NaN] is stored as [NaN], beside the clamped [y], when the conversion
    of [y] does not throw; when it throws, nothing is stored. *)
Lemma player_move_stores_NaN s sid p r d now :
  players s !! sid = Some p → current_room p = Some r →
  ToBoolean (data_x d) = true → ToNumber (data_x d) = Some JsNaN →
  (∀ py, clamp 350 (data_y d) = Some py →
         ∃ p', players (step s (EvPlayerMove sid (Some d) now)) !! sid = Some p'
               ∧ x p' = JsNaN ∧ y p' = py)
  ∧ (clamp 350 (data_y d) = None →
     handle s (EvPlayerMove sid (Some d) now) = Threw s []).
Proof.
  intros Hp [Hr Ht]%current_room_Some Hb Hn. unfold step. simpl.
  unfold player_move. rewrite Hp, Hr, Ht, (clamp_NaN _ _ Hb Hn). split.
  - intros py ->. simpl. rewrite lookup_insert_eq. by eexists.
  - by intros ->.
Qed.

(** The scenario of the specification: [x = 9999, y = -50] is stored as
    [(750, 0)]. *)
Example move_out_of_range_is_clamped :
  let s := run (lobby ++ [EvPlayerMove "A" (Some (mkMoveData (JsNum (JsFinite 9999))
                                                        (JsNum (JsFinite (-50))))) 7]) init in
  (λ p, (x p, y p)) <$> players s !! "A" = Some (JsFinite 750, JsFinite 0).
Proof. reflexivity. Qed.

(** C3: the stored position is not always within the playfield.  A truthy
    value that is not numeric, such as the string ["abc"] or a plain
    object, passes the [|| 0] default, is converted to [NaN] by [Math.min],
    and [NaN] is what is stored and broadcast. *)
Theorem player_move_non_numeric_stores_NaN :
  let move := EvPlayerMove "A" (Some (mkMoveData (JsStr "abc" JsNaN) JsObject)) 7 in
  let s := run (lobby ++ [move]) init in
  players (run lobby init) !! "A" = Some player_A
  ∧ current_room player_A = Some "r1"
  ∧ players s !! "A" = Some (with_position player_A JsNaN JsNaN 7)
  ∧ ¬ in_range 750 (JsNaN) ∧ ¬ in_range 350 (JsNaN)
  ∧ emitted (handle (run lobby init) move)
    = [mkEmit (ToRoomExcept "r1" "A") (PlayerMoved "A" JsNaN JsNaN 7)].
Proof. split_and!; try reflexivity; apply in_range_not_NaN. Qed.

(* ===================================================================== *)
(** ** The order in which the reaper visits the entries does not matter *)
(* ===================================================================== *)

Lemma set_delete_comm a b l : set_delete a (set_delete b l) = set_delete b (set_delete a l).
Proof.
  unfold set_delete. rewrite !list_filter_filter. apply list_filter_iff. tauto.
Qed.

Lemma lookup_drop_member_comm a r b r' m i :
  drop_member a r (drop_member b r' m) !! i = drop_member b r' (drop_member a r m) !! i.
Proof.
  rewrite !lookup_drop_member.
  destruct (decide (i = r)) as [Hr|Hr], (decide (i = r')) as [Hr'|Hr']; subst.
  - rewrite !decide_True by done.
    destruct (m !! r') as [ms|]; [|done].
    destruct (decide (set_delete b ms = [])) as [Hb|Hb],
             (decide (set_delete a ms = [])) as [Ha|Ha]; try done.
    + rewrite decide_True; [done|]. by rewrite set_delete_comm, Hb.
    + rewrite decide_True; [done|]. by rewrite <- set_delete_comm, Ha.
    + rewrite set_delete_comm. by destruct (decide (set_delete b (set_delete a ms) = [])).
  - by rewrite decide_False by done.
  - by rewrite decide_False by done.
  - done.
Qed.

Lemma rooms_left_comm k1 p1 k2 p2 m :
  rooms_left k1 p1 (rooms_left k2 p2 m) = rooms_left k2 p2 (rooms_left k1 p1 m).
Proof.
  unfold rooms_left. destruct (current_room p1), (current_room p2); try done.
  apply map_eq. intros i. apply lookup_drop_member_comm.
Qed.

Lemma evict_comm now s e1 e2 :
  evict now (evict now s e1) e2 = evict now (evict now s e2) e1.
Proof.
  destruct e1 as [k1 p1], e2 as [k2 p2].
  destruct (decide (stale now p1)) as [H1|H1], (decide (stale now p2)) as [H2|H2];
    rewrite ?(evict_stale _ _ _ _ H1), ?(evict_stale _ _ _ _ H2),
            ?(evict_fresh _ _ _ _ H1), ?(evict_fresh _ _ _ _ H2),
            ?(evict_stale _ _ _ _ H1), ?(evict_stale _ _ _ _ H2); try done.
  simpl. f_equal.
  - apply map_eq. intros i. rewrite !lookup_delete.
    by destruct (decide (k1 = i)), (decide (k2 = i)).
  - apply rooms_left_comm.
Qed.

Lemma foldl_evict_perm now l l' s :
  l ≡ₚ l' → foldl (evict now) s l = foldl (evict now) s l'.
Proof.
  intros Hperm. revert s.
  induction Hperm as [|e l l' _ IH|e1 e2 l|l l' l'' _ IH1 _ IH2]; intros s; cbn [foldl].
  - done.
  - apply IH.
  - by rewrite evict_comm.
  - by rewrite IH1.
Qed.

(** X10: whatever the order in which the entries of [players] are
    enumerated (the runtime's is their insertion order), the tick ends in
    the same state. *)
Lemma reaper_order_irrelevant s now l :
  l ≡ₚ map_to_list (players s) →
  foldl (evict now) s l = state_of (reaper s now).
Proof. apply foldl_evict_perm. Qed.

(* ===================================================================== *)
(** ** Further properties of the socket handlers *)
(* ===================================================================== *)

Lemma run_app evs1 evs2 s : run (evs1 ++ evs2) s = run evs2 (run evs1 s).
Proof. unfold run. apply foldl_app. Qed.

(** X1: an event coming from socket [sid] leaves every other socket as it
    was: its Player entry, the rooms it is a member of and its transport
    rooms. *)
Theorem socket_event_touches_only_sender s e sid k :
  sender e = Some sid → k ≠ sid →
  players (step s e) !! k = players s !! k
  ∧ (∀ r, k ∈ members (step s e) r ↔ k ∈ members s r)
  ∧ socket_rooms (step s e) k = socket_rooms s k.
Proof.
  intros He Hk. destruct (handle_frame s e sid He) as [Fp Fm Fs].
  split_and!; [by apply Fp| |by apply Fs]. intros r. by apply Fm.
Qed.

Lemma socket_event_touches_only_sender_witness :
  sender (EvJoinRoom "A" "r2" 9) = Some "A" ∧ "B" ≠ "A"
  ∧ players (step (run lobby init) (EvJoinRoom "A" "r2" 9)) !! "B"
    = players (run lobby init) !! "B".
Proof.
  split; [reflexivity|]. split; [done|].
  apply (socket_event_touches_only_sender (run lobby init) (EvJoinRoom "A" "r2" 9) "A" "B");
    [reflexivity|done].
Defined.

(** X2: in the state reached by any sequence of events, every Player entry
    is stored under its own id, no member set lists a socket twice, and a
    player whose [room] field is set is in the member set of that room and
    has its socket in the transport room of that name. *)
Theorem reachable_states_well_formed evs :
  let s := run evs init in
  keys_agree s ∧ rooms_nodup s ∧ room_is_member s ∧ room_is_joined s.
Proof. intros s. destruct (run_Inv evs init Inv_init). by split_and!. Qed.

Lemma tidy_run_room_matches_membership_witness :
  tidy init lobby ∧ room_matches_membership (run lobby init).
Proof.
  assert (tidy init lobby) as Ht.
  { simpl. split_and!; try done; intros p Hp; by vm_compute in Hp. }
  split; [exact Ht|]. exact (tidy_run_room_matches_membership lobby Ht).
Defined.

Lemma set_delete_add_fresh (a : string) (l : list string) :
  a ∉ l → set_delete a (set_add a l) = l.
Proof.
  intros Ha. unfold set_add. rewrite decide_False by done.
  unfold set_delete. rewrite filter_app.
  rewrite filter_cons_False by (intros H; by apply H).
  rewrite filter_nil, app_nil_r.
  induction l as [|b l IH]; [done|].
  apply not_elem_of_cons in Ha as [Hab Hal].
  rewrite filter_cons_True by done. f_equal. by apply IH.
Qed.

(** X4: [leave-room] a second time does nothing: the state stays the one
    the first [leave-room] left, and nothing is emitted. *)
Theorem leave_room_twice s sid :
  handle (step s (EvLeaveRoom sid)) (EvLeaveRoom sid)
  = Returned (step s (EvLeaveRoom sid)) [].
Proof.
  unfold step. simpl. apply leave_room_no_room. intros p' Hp'.
  destruct (players s !! sid) as [p|] eqn:Hp;
    [destruct (current_room p) as [r|] eqn:Hr|].
  - rewrite (leave_room_in_room _ _ _ _ Hp Hr) in Hp'. simpl in Hp'.
    rewrite lookup_insert_eq in Hp'. by injection Hp' as <-.
  - rewrite leave_room_no_room in Hp' by (intros p0 Hp0; congruence).
    simpl in Hp'. congruence.
  - rewrite leave_room_no_room in Hp' by (intros p0 Hp0; congruence).
    simpl in Hp'. congruence.
Qed.

(** X5: join then leave is a round trip, for a room key other than the
    empty string.  In the state reached by any sequence of events, a player
    whose [room] field is [null] joins a room it is not listed in, and then
    leaves: [rooms] is back exactly as it was (the room is deleted again if
    the join created it); of the Player entry only [lastUpdate] has changed;
    the socket is in the transport rooms it was in, the one joined and left
    apart; the other sockets are in the transport rooms they were in.  With
    the empty string as the key the leave does nothing: the player stays
    listed in that room, with the empty string as its [room] field. *)
Theorem join_then_leave_restores evs sid roomId now p :
  let s := run evs init in
  players s !! sid = Some p → room p = None → sid ∉ members s roomId →
  let s' := run [EvJoinRoom sid roomId now; EvLeaveRoom sid] s in
  (∀ q, q ≠ sid → socket_rooms s' q = socket_rooms s q)
  ∧ (roomId ≠ "" →
     rooms s' = rooms s
     ∧ players s' = <[sid := with_room p None now]> (players s)
     ∧ socket_rooms s' sid = socket_rooms s sid ∖ {[roomId]})
  ∧ (roomId = "" →
     rooms s' = <["" := members s "" ++ [sid]]> (rooms s)
     ∧ players s' = <[sid := with_room p (Some "") now]> (players s)
     ∧ socket_rooms s' sid = {[""]} ∪ socket_rooms s sid).
Proof.
  intros s Hp Hroom Hmem s'. unfold s', run. cbn [foldl].
  pose proof (inv_nonempty _ (run_Inv evs init Inv_init)) as Hne. fold s in Hne.
  assert (current_room p = None) as Hcur by (unfold current_room; by rewrite Hroom).
  remember (step s (EvJoinRoom sid roomId now)) as s1 eqn:Hs1.
  assert (s1 = {| players := <[sid := with_room p (Some roomId) now]> (players s);
                  rooms := <[roomId := members s roomId ++ [sid]]> (rooms s);
                  sockets := <[sid := {[roomId]} ∪ socket_rooms s sid]> (sockets s) |})
    as Hs1'.
  { rewrite Hs1. unfold step. cbn [handle]. rewrite (join_room_registered _ _ _ _ _ Hp).
    unfold rooms_left, left_rooms. rewrite Hcur. cbn [state_of].
    unfold set_add. fold (members s roomId). rewrite decide_False by done.
    by rewrite difference_empty_L. }
  clear Hs1. subst s1. split_and!.
  - intros q Hq. unfold step. cbn [handle].
    destruct (decide (roomId = "")) as [->|Hid].
    + rewrite leave_room_no_room; last first.
      { cbn [players]. intros p'. rewrite lookup_insert_eq. by intros [= <-]. }
      unfold socket_rooms. simpl. by rewrite lookup_insert_ne.
    + erewrite leave_room_in_room; cycle 1.
      { cbn [players]. apply lookup_insert_eq. }
      { apply current_room_Some. split; [done|]. by apply truthy_nonempty. }
      unfold socket_rooms. simpl. by rewrite !lookup_insert_ne.
  - intros Hid. unfold step. cbn [handle].
    erewrite leave_room_in_room; cycle 1.
    { cbn [players]. apply lookup_insert_eq. }
    { apply current_room_Some. split; [done|]. by apply truthy_nonempty. }
    cbn [state_of players rooms sockets]. split_and!.
    + unfold drop_member. rewrite lookup_insert_eq.
      assert (set_delete sid (members s roomId ++ [sid]) = members s roomId) as ->.
      { rewrite <- (set_delete_add_fresh sid (members s roomId) Hmem) at 2.
        unfold set_add. by rewrite decide_False. }
      unfold members in *.
      destruct (rooms s !! roomId) as [ms|] eqn:Hms; simpl in *.
      * rewrite decide_False; last first.
        { intros Hl%length_zero_nil. by apply (Hne roomId ms). }
        rewrite insert_insert_eq. by apply insert_id.
      * rewrite delete_insert_eq. by apply delete_id.
    + by rewrite insert_insert_eq.
    + unfold socket_rooms. simpl. rewrite !lookup_insert_eq. simpl.
      apply set_eq. intros r0.
      rewrite !elem_of_difference, elem_of_union, elem_of_singleton.
      split; [by intros [[->|?] ?]|]. intros [Hr0 Hr1]. split; [by right|done].
  - intros ->. unfold step. cbn [handle].
    rewrite leave_room_no_room; last first.
    { cbn [players]. intros p'. rewrite lookup_insert_eq. by intros [= <-]. }
    cbn [state_of players rooms sockets]. split_and!; [done|done|].
    unfold socket_rooms. simpl. by rewrite lookup_insert_eq.
Qed.

Lemma join_then_leave_restores_witness :
  let s := run [EvRegisterPlayer "A" anon 0] init in
  let p := {| id := "A"; username := "Player_A"; avatar := default_avatar;
              x := JsFinite 50; y := JsFinite 300; room := None; lastUpdate := 0 |} in
  players s !! "A" = Some p ∧ room p = None ∧ ("A" ∉ members s "r1")
  ∧ rooms (run [EvJoinRoom "A" "r1" 1; EvLeaveRoom "A"] s) = rooms s.
Proof.
  intros s p.
  assert ("A" ∉ members s "r1") as Hm.
  { unfold members. simpl. rewrite lookup_empty. simpl. apply not_elem_of_nil. }
  split; [reflexivity|]. split; [reflexivity|]. split; [exact Hm|].
  refine (proj1 (proj1 (proj2 (join_then_leave_restores
            [EvRegisterPlayer "A" anon 0] "A" "r1" 1 p eq_refl eq_refl Hm)) _)).
  done.
Defined.

(** A socket evicted while its transport room stayed joined registers
    again, joins the same room and leaves: it is out of the transport room
    it was still in. *)
Example join_then_leave_after_eviction :
  let s := run [EvRegisterPlayer "A" anon 0; EvJoinRoom "A" "r1" 1;
                EvReaperTick 400000; EvRegisterPlayer "A" anon 400001] init in
  socket_rooms s "A" = {["r1"]}
  ∧ socket_rooms (run [EvJoinRoom "A" "r1" 400002; EvLeaveRoom "A"] s) "A" = ∅.
Proof. split; by vm_compute. Qed.







(* ===================================================================== *)
(** ** Further properties of the reaper *)
(* ===================================================================== *)

Lemma foldl_evict_all_fresh now l s :
  (∀ k p, (k, p) ∈ l → ¬ stale now p) → foldl (evict now) s l = s.
Proof.
  revert s. induction l as [|[k p] l IH]; intros s Hf; cbn [foldl]; [done|].
  rewrite evict_fresh by (apply (Hf k); by left).
  apply IH. intros k' p' Hin. apply (Hf k'). by right.
Qed.

(** X9: after a tick at time [now] no entry left in [players] is inactive
    at that time, so a second tick at the same time changes nothing. *)
Theorem reaper_twice s now :
  let s' := step s (EvReaperTick now) in
  (∀ k p, players s' !! k = Some p → ¬ stale now p)
  ∧ step s' (EvReaperTick now) = s'.
Proof.
  intros s'.
  assert (∀ k p, players s' !! k = Some p → ¬ stale now p) as Hfresh.
  { intros k p. unfold s', step. cbn [handle]. rewrite reaper_players.
    destruct (players s !! k) as [p'|]; [|done].
    case_decide; [done|]. by intros [= <-]. }
  split; [done|]. unfold step at 1. simpl.
  apply foldl_evict_all_fresh. intros k p Hin%elem_of_map_to_list. by eapply Hfresh.
Qed.

Lemma reaper_order_irrelevant_witness :
  let s := run lobby init in
  reverse (map_to_list (players s)) ≡ₚ map_to_list (players s)
  ∧ foldl (evict 400000) s (reverse (map_to_list (players s)))
    = state_of (reaper s 400000).
Proof.
  intros s.
  assert (reverse (map_to_list (players s)) ≡ₚ map_to_list (players s)) as Hperm
    by apply reverse_Permutation.
  split; [exact Hperm|]. exact (reaper_order_irrelevant s 400000 _ Hperm).
Defined.

(** X11: the reaper does not take an evicted socket out of its transport
    rooms.  In the state reached by any sequence of events, a player of room
    [r] evicted by a tick has no Player entry any more, yet still receives
    what is sent to the room afterwards. *)
Theorem evicted_socket_still_receives evs k p r now :
  let s := run evs init in
  players s !! k = Some p → room p = Some r → stale now p →
  let s' := step s (EvReaperTick now) in
  players s' !! k = None
  ∧ receives s' (ToRoom r) k
  ∧ (∀ sid, sid ≠ k → receives s' (ToRoomExcept r sid) k).
Proof.
  intros s Hp Hr Hs s'. pose proof (run_Inv evs init Inv_init) as HI. fold s in HI.
  assert (r ∈ socket_rooms s' k) as Hin.
  { unfold s', step, socket_rooms. simpl. rewrite foldl_evict_sockets.
    by apply (inv_joined s HI k p). }
  split_and!; [|done|by intros sid Hne].
  unfold s', step. cbn [handle]. by rewrite reaper_players, Hp, decide_True.
Qed.

Lemma evicted_socket_still_receives_witness :
  players (run lobby init) !! "A" = Some player_A
  ∧ room player_A = Some "r1" ∧ stale 400000 player_A
  ∧ receives (step (run lobby init) (EvReaperTick 400000)) (ToRoom "r1") "A".
Proof.
  assert (stale 400000 player_A) as Hs by (unfold stale, timeout; simpl; lia).
  split; [reflexivity|]. split; [reflexivity|]. split; [exact Hs|].
  exact (proj1 (proj2 (evicted_socket_still_receives lobby "A" player_A "r1" 400000
                         eq_refl eq_refl Hs))).
Defined.

Lemma run_chats s chats : Forall is_chat chats → run chats s = s.
Proof.
  revert s. induction chats as [|e chats IH]; intros s Hc; [done|].
  apply Forall_cons in Hc as [He Hc].
  change (run (e :: chats) s) with (run chats (step s e)).
  destruct e; try done. unfold step. simpl. rewrite chat_message_state. by apply IH.
Qed.

(** X12: chat messages change nothing in the state, [lastUpdate] included,
    whoever sends them: a player who only chats is evicted by the reaper as
    if it had been silent. *)
Theorem chatting_does_not_refresh s sid p now chats :
  players s !! sid = Some p → stale now p → Forall is_chat chats →
  run chats s = s
  ∧ players (run (chats ++ [EvReaperTick now]) s) !! sid = None.
Proof.
  intros Hp Hs Hc. pose proof (run_chats s chats Hc) as Hrun. split; [done|].
  rewrite run_app, Hrun. unfold run. simpl. unfold step. cbn [handle].
  by rewrite reaper_players, Hp, decide_True.
Qed.

Lemma chatting_does_not_refresh_witness :
  let chats := [EvChatMessage "A" (Some {| data_message := JsStr "hi" JsNaN |}) 399998 399999] in
  players (run lobby init) !! "A" = Some player_A
  ∧ stale 400000 player_A ∧ Forall is_chat chats
  ∧ players (run (chats ++ [EvReaperTick 400000]) (run lobby init)) !! "A" = None.
Proof.
  intros chats.
  assert (stale 400000 player_A) as Hs by (unfold stale, timeout; simpl; lia).
  assert (Forall is_chat chats) as Hc by (repeat constructor).
  split; [reflexivity|]. split; [exact Hs|]. split; [exact Hc|].
  exact (proj2 (chatting_does_not_refresh (run lobby init) "A" player_A 400000 chats
                  eq_refl Hs Hc)).
Defined.

(** X13: a join and a move do refresh [lastUpdate].  After a [join-room] of
    a registered player, or a [player-move] of a player in a room with a
    payload whose two coordinates convert without throwing, at time [t], a
    tick at time [now] evicts the player iff [now - t] exceeds the
    threshold, however long the player had been inactive before.  A move
    with a coordinate whose conversion throws refreshes nothing: the tick
    evicts the player iff it was inactive for longer than the threshold
    already. *)
Theorem join_and_move_refresh s sid p now t :
  players s !! sid = Some p →
  (∀ roomId,
     players (run [EvJoinRoom sid roomId t; EvReaperTick now] s) !! sid = None
     ↔ now - t > timeout)
  ∧ (∀ r d, current_room p = Some r →
     is_Some (clamp 750 (data_x d)) → is_Some (clamp 350 (data_y d)) →
     players (run [EvPlayerMove sid (Some d) t; EvReaperTick now] s) !! sid = None
     ↔ now - t > timeout)
  ∧ (∀ r d, current_room p = Some r →
     clamp 750 (data_x d) = None ∨ clamp 350 (data_y d) = None →
     players (run [EvPlayerMove sid (Some d) t; EvReaperTick now] s) !! sid = None
     ↔ stale now p).
Proof.
  intros Hp. split_and!.
  - intros roomId. unfold run. simpl. unfold step at 1. cbn [handle].
    rewrite reaper_players. unfold step. cbn [handle].
    rewrite (join_room_registered _ _ _ _ _ Hp). simpl. rewrite lookup_insert_eq.
    unfold stale. simpl. by case_decide.
  - intros r d [Hr Ht]%current_room_Some [px Hx] [py Hy]. unfold run. simpl.
    unfold step at 1. cbn [handle]. rewrite reaper_players. unfold step. cbn [handle].
    unfold player_move. rewrite Hp, Hr, Ht, Hx, Hy. simpl. rewrite lookup_insert_eq.
    unfold stale. simpl. by case_decide.
  - intros r d [Hr Ht]%current_room_Some Hthrow. unfold run. simpl.
    unfold step at 1. cbn [handle]. rewrite reaper_players. unfold step. cbn [handle].
    assert (player_move s sid (Some d) t = Threw s []) as ->.
    { unfold player_move. rewrite Hp, Hr, Ht.
      destruct Hthrow as [->| ->]; [done|]. by destruct (clamp 750 (data_x d)). }
    simpl. rewrite Hp. by case_decide.
Qed.

Lemma join_and_move_refresh_witness :
  players (run lobby init) !! "A" = Some player_A
  ∧ (players (run [EvJoinRoom "A" "r2" 500000; EvReaperTick 600000] (run lobby init))
     !! "A" = None ↔ 600000 - 500000 > timeout).
Proof.
  split; [reflexivity|].
  exact (proj1 (join_and_move_refresh (run lobby init) "A" player_A 600000 500000
                  eq_refl) "r2").
Defined.

(* ===================================================================== *)
(** ** Further properties of [disconnect] and of payload handling *)
(* ===================================================================== *)

(** X14: after a socket disconnects it has no Player entry and is in no
    transport room, so nothing sent to a room reaches it.  In a run with no
    second registration while in a room and no empty room key, it is in no
    member set either. *)
Theorem disconnect_cleans_up evs sid :
  let s' := step (run evs init) (EvDisconnect sid) in
  players s' !! sid = None
  ∧ socket_rooms s' sid = ∅
  ∧ (∀ r, ¬ receives s' (ToRoom r) sid)
  ∧ (tidy init evs → ∀ r, sid ∉ members s' r).
Proof.
  intros s'.
  assert (players s' !! sid = None) as Hnone.
  { unfold s', step. destruct (players (run evs init) !! sid) as [p|] eqn:Hp.
    - rewrite (handle_disconnect_registered _ _ _ Hp). simpl. apply lookup_delete_eq.
    - by rewrite (handle_disconnect_unregistered _ _ Hp). }
  assert (socket_rooms s' sid = ∅) as Hempty.
  { unfold s', step, socket_rooms. destruct (players (run evs init) !! sid) as [p|] eqn:Hp.
    - rewrite (handle_disconnect_registered _ _ _ Hp). simpl. by rewrite lookup_delete_eq.
    - rewrite (handle_disconnect_unregistered _ _ Hp). simpl. by rewrite lookup_delete_eq. }
  split_and!; [done|done| |].
  - intros r. simpl. rewrite Hempty. apply not_elem_of_empty.
  - intros Ht r Hin.
    assert (membership_is_room init) as HM0.
    { split; intros k; simpl; [|by rewrite lookup_empty].
      intros r0. unfold members. simpl. rewrite lookup_empty. simpl.
      by intros ?%not_elem_of_nil. }
    pose proof (run_membership_is_room evs init HM0 Ht) as HM.
    assert (membership_is_room s') as [Hm _]
      by (by apply (step_membership_is_room _ (EvDisconnect sid) HM)).
    destruct (Hm sid r Hin) as (p & Hp & _). congruence.
Qed.

Lemma disconnect_cleans_up_witness :
  tidy init lobby
  ∧ ∀ r, "A" ∉ members (step (run lobby init) (EvDisconnect "A")) r.
Proof.
  assert (tidy init lobby) as Ht.
  { simpl. split_and!; try done; intros p Hp; by vm_compute in Hp. }
  split; [exact Ht|].
  exact (proj2 (proj2 (proj2 (disconnect_cleans_up lobby "A"))) Ht).
Defined.

(** X15: a payload that is [undefined].  [register-player] throws before it
    writes anything.  [player-move] throws, the state unchanged, when the
    sender is a player in a room, and returns without a word when it is
    not: the check of the sender comes first. *)
Theorem undefined_payload s sid now :
  handle s (EvRegisterPlayer sid None now) = Threw s []
  ∧ (∀ p r, players s !! sid = Some p → current_room p = Some r →
            handle s (EvPlayerMove sid None now) = Threw s [])
  ∧ ((∀ p, players s !! sid = Some p → current_room p = None) →
     handle s (EvPlayerMove sid None now) = Returned s []).
Proof.
  split_and!; [done| |].
  - intros p r Hp [Hr Ht]%current_room_Some. simpl. unfold player_move.
    by rewrite Hp, Hr, Ht.
  - intros Hn. simpl. unfold player_move.
    destruct (players s !! sid) as [p|]; [|done].
    specialize (Hn p eq_refl). unfold current_room in Hn.
    destruct (room p) as [r|]; [|done]. by destruct (truthy r).
Qed.

Lemma undefined_payload_witness :
  players (run lobby init) !! "A" = Some player_A
  ∧ current_room player_A = Some "r1"
  ∧ handle (run lobby init) (EvPlayerMove "A" None 9) = Threw (run lobby init) [].
Proof.
  split; [reflexivity|]. split; [reflexivity|].
  exact (proj1 (proj2 (undefined_payload (run lobby init) "A" 9))
               player_A "r1" eq_refl eq_refl).
Defined.

(** X16: what the clamp does to a number, for a bound [hi > 0]: a finite
    value within [(0, hi)] is stored as it is, a value at or below [0] as
    [0], a value at or above [hi] as [hi]; [NaN] and [-Infinity] give [0]
    and [Infinity] gives [hi]. *)
Theorem clamp_nearest_bound hi :
  (0 < hi)%Q →
  (∀ q, (0 < q)%Q → (q < hi)%Q → clamp hi (JsNum (JsFinite q)) = Some (JsFinite q))
  ∧ (∀ q, (q <= 0)%Q → clamp hi (JsNum (JsFinite q)) = Some (JsFinite 0))
  ∧ (∀ q, (hi <= q)%Q → clamp hi (JsNum (JsFinite q)) = Some (JsFinite hi))
  ∧ clamp hi (JsNum JsNaN) = Some (JsFinite 0)
  ∧ clamp hi (JsNum JsNegInfinity) = Some (JsFinite 0)
  ∧ clamp hi (JsNum JsInfinity) = Some (JsFinite hi).
Proof.
  intros Hhi.
  assert (Qle_bool hi 0 = false) as Hhi0.
  { destruct (Qle_bool hi 0) eqn:E; [|done]. apply Qle_bool_iff in E. lra. }
  assert (Qle_bool 0 hi = true) as H0hi by (apply Qle_bool_iff; lra).
  assert (clamp hi (JsNum (JsFinite 0)) = Some (JsFinite 0)) as Hzero.
  { unfold clamp. simpl. by rewrite Hhi0. }
  split_and!.
  - intros q H0 H1. by apply clamp_within.
  - intros q Hq. destruct (Qeq_bool q 0) eqn:Hz.
    + rewrite clamp_falsy by (simpl; by rewrite Hz). exact Hzero.
    + apply clamp_below; [done|].
      assert (¬ (q == 0)%Q) by (rewrite <- Qeq_bool_iff; congruence). lra.
  - intros q Hq. apply clamp_above; [lra|done].
  - rewrite clamp_falsy by done. exact Hzero.
  - reflexivity.
  - unfold clamp. simpl. by rewrite H0hi.
Qed.

Lemma clamp_nearest_bound_witness :
  (0 < 750)%Q ∧ clamp 750 (JsNum (JsFinite 9999)) = Some (JsFinite 750).
Proof.
  assert (0 < 750)%Q as H by reflexivity.
  split; [exact H|].
  refine (proj1 (proj2 (proj2 (clamp_nearest_bound 750 H))) 9999%Q _).
  discriminate.
Defined.

(* ===================================================================== *)
(** ** The game catalogue *)
(* ===================================================================== *)

Section map_set_get.
Context {V : Type}.
Implicit Types (l : list (string * V)) (k : string) (v : V).

Lemma map_get_set_eq k v l : map_get k (map_set k v l) = Some v.
Proof.
  induction l as [|[k' v'] l IH]; simpl.
  - by rewrite decide_True.
  - destruct (decide (k' = k)) as [->|Hne]; simpl.
    + by rewrite decide_True.
    + by rewrite decide_False.
Qed.

Lemma map_get_set_ne k k' v l : k ≠ k' → map_get k' (map_set k v l) = map_get k' l.
Proof.
  intros Hne. induction l as [|[k0 v0] l IH]; simpl.
  - by rewrite decide_False.
  - destruct (decide (k0 = k)) as [->|Hne0]; simpl.
    + by rewrite !decide_False.
    + by rewrite IH.
Qed.

Lemma map_get_elem_of k v l : map_get k l = Some v → (k, v) ∈ l.
Proof.
  induction l as [|[k0 v0] l IH]; simpl; [done|].
  destruct (decide (k0 = k)) as [->|Hne].
  - intros [= ->]. by left.
  - intros H. right. by apply IH.
Qed.

Lemma map_get_None k l : map_get k l = None ↔ k ∉ l.*1.
Proof.
  induction l as [|[k0 v0] l IH].
  - split; [intros _; apply not_elem_of_nil|done].
  - cbn [map_get]. rewrite fmap_cons. cbn [fst]. rewrite not_elem_of_cons.
    destruct (decide (k0 = k)) as [->|Hne].
    + split; [done|]. by intros [? _].
    + rewrite IH. split; [by split|]. by intros [_ ?].
Qed.

Lemma length_map_set k v l :
  length (map_set k v l) =
    match map_get k l with Some _ => length l | None => S (length l) end.
Proof.
  induction l as [|[k0 v0] l IH]; simpl; [done|].
  destruct (decide (k0 = k)) as [->|Hne]; simpl; [done|].
  rewrite IH. by destruct (map_get k l).
Qed.

Lemma map_set_keys k v l :
  (map_set k v l).*1 = if decide (k ∈ l.*1) then l.*1 else l.*1 ++ [k].
Proof.
  induction l as [|[k0 v0] l IH]; [done|].
  cbn [map_set]. rewrite !fmap_cons. cbn [fst].
  destruct (decide (k0 = k)) as [->|Hne].
  - rewrite fmap_cons. cbn [fst]. rewrite decide_True; [done|by left].
  - rewrite fmap_cons, IH. cbn [fst]. destruct (decide (k ∈ l.*1)) as [Hin|Hin].
    + rewrite decide_True; [done|by right].
    + rewrite decide_False; [done|]. rewrite not_elem_of_cons. by split.
Qed.

Lemma map_set_NoDup k v l : NoDup l.*1 → NoDup (map_set k v l).*1.
Proof.
  intros Hnd. rewrite map_set_keys. case_decide as Hin; [done|].
  apply NoDup_app. split_and!; [done| |apply NoDup_singleton].
  intros k0 Hk0 ->%list_elem_of_singleton. done.
Qed.
End map_set_get.

(** *** Game ids *)

Lemma string_app_inv_head (s t1 t2 : string) : s +:+ t1 = s +:+ t2 → t1 = t2.
Proof.
  induction s as [|c s IH]; [done|].
  change (String c (s +:+ t1) = String c (s +:+ t2) → t1 = t2).
  intros [= H]. by apply IH.
Qed.

Lemma string_length_app (s t : string) :
  String.length (s +:+ t) = (String.length s + String.length t)%nat.
Proof.
  induction s as [|c s IH]; [done|].
  change (S (String.length (s +:+ t)) = S (String.length s + String.length t)).
  by rewrite IH.
Qed.

Lemma string_app_inv_tail (s1 s2 t : string) : s1 +:+ t = s2 +:+ t → s1 = s2.
Proof.
  revert s2. induction s1 as [|c1 s1 IH]; intros [|c2 s2] H; [done|..].
  - apply (f_equal String.length) in H.
    change (String.length t = S (String.length (s2 +:+ t))) in H.
    rewrite string_length_app in H. lia.
  - apply (f_equal String.length) in H.
    change (S (String.length (s1 +:+ t)) = String.length t) in H.
    rewrite string_length_app in H. lia.
  - change (String c1 (s1 +:+ t) = String c2 (s2 +:+ t)) in H.
    injection H as -> H. f_equal. by apply IH.
Qed.

Lemma game_id_of_inj_time now1 now2 sid :
  game_id_of now1 sid = game_id_of now2 sid → now1 = now2.
Proof.
  unfold game_id_of. intros H%string_app_inv_head%string_app_inv_tail.
  by apply (inj pretty).
Qed.

Lemma game_id_of_inj_prefix now sid1 sid2 :
  game_id_of now sid1 = game_id_of now sid2 ↔ slice0 6 sid1 = slice0 6 sid2.
Proof.
  unfold game_id_of. split; [|by intros ->].
  intros H%string_app_inv_head%string_app_inv_head. by apply string_app_inv_head in H.
Qed.

(** X17: a saved game can be read back.  After [save-game] from a
    registered player the catalogue holds, under the id confirmed to the
    sender, a record with the payload's title, description and data, the
    player's current name as creator and zero plays and likes; the
    registries are untouched, and [get-games] from any socket, registered or
    not, is answered with a list that contains the record.  The handler
    throws, after all this, only when the log line cannot print the
    title. *)
Theorem save_game_then_get_games sv sid p d now iso :
  players (core sv) !! sid = Some p →
  let o := server_handle sv (EvSaveGame sid (Some d) now iso) in
  let g := game_of p sid d now iso in
  sent o = [CatalogEmit sid (GameSaved (gameId g) "Game saved successfully!")]
  ∧ raised o = conversion_throws (sd_title d)
  ∧ core (after o) = core sv
  ∧ map_get (gameId g) (games (after o)) = Some g
  ∧ ∀ q, ∃ gl,
      server_handle (after o) (EvGetGames q)
      = {| after := after o; sent := [CatalogEmit q (GamesList gl)]; raised := false |}
      ∧ g ∈ gl.
Proof.
  intros Hp o g. unfold o, g. simpl. unfold save_game. rewrite Hp. simpl.
  split_and!; try done.
  - apply map_get_set_eq.
  - intros q. eexists. split; [done|]. simpl.
    apply list_elem_of_fmap. eexists (_, _). split; [done|].
    apply map_get_elem_of, map_get_set_eq.
Qed.

Lemma save_game_then_get_games_witness :
  let sv := {| core := run lobby init; games := [] |} in
  let d := {| sd_title := JsStr "maze" JsNaN; sd_description := JsUndefined;
              sd_gameData := JsObject |} in
  players (core sv) !! "A" = Some player_A
  ∧ map_get "game_1700000000123_A"
            (games (after (server_handle sv (EvSaveGame "A" (Some d) 1700000000123 "2023"))))
    = Some (game_of player_A "A" d 1700000000123 "2023").
Proof.
  intros sv d. split; [reflexivity|].
  exact (proj1 (proj2 (proj2 (proj2
           (save_game_then_get_games sv "A" player_A d 1700000000123 "2023" eq_refl))))).
Defined.

(** X18: who may save.  From a socket with no Player entry [save-game] does
    nothing and sends nothing, not even an error, whatever the payload; from
    a registered player an [undefined] payload makes the handler throw
    before anything is stored or sent.  Being in a room is not required:
    with a payload the record is stored, and the handler throws afterwards
    only when the log line cannot print the title. *)
Theorem save_game_guards sv sid data now iso :
  (players (core sv) !! sid = None →
   server_handle sv (EvSaveGame sid data now iso)
   = {| after := sv; sent := []; raised := false |})
  ∧ (is_Some (players (core sv) !! sid) →
     server_handle sv (EvSaveGame sid None now iso)
     = {| after := sv; sent := []; raised := true |})
  ∧ (∀ p d, players (core sv) !! sid = Some p →
            raised (server_handle sv (EvSaveGame sid (Some d) now iso))
            = conversion_throws (sd_title d)
            ∧ is_Some (map_get (game_id_of now sid)
                         (games (server_step sv (EvSaveGame sid (Some d) now iso))))).
Proof.
  split_and!.
  - intros Hp. simpl. unfold save_game. by rewrite Hp.
  - intros [p Hp]. simpl. unfold save_game. by rewrite Hp.
  - intros p d Hp. unfold server_step. simpl. unfold save_game. rewrite Hp. simpl.
    split; [done|]. rewrite map_get_set_eq. by eexists.
Qed.

Lemma save_game_guards_witness :
  let sv := {| core := run lobby init; games := [] |} in
  players (core sv) !! "C" = None
  ∧ server_handle sv (EvSaveGame "C" None 5 "2023")
    = {| after := sv; sent := []; raised := false |}.
Proof.
  intros sv. split; [reflexivity|].
  exact (proj1 (save_game_guards sv "C" None 5 "2023") eq_refl).
Defined.

(** X19: game ids.  Two saves of one socket at different times get
    different ids, so both records are kept.  Two saves at the same time
    from sockets whose ids agree on their first six characters get the same
    id: the second record replaces the first and the catalogue does not
    grow. *)
Theorem save_game_ids sv sid1 sid2 p1 p2 d1 d2 now1 now2 iso1 iso2 :
  players (core sv) !! sid1 = Some p1 → players (core sv) !! sid2 = Some p2 →
  let sv1 := server_step sv (EvSaveGame sid1 (Some d1) now1 iso1) in
  let sv2 := server_step sv1 (EvSaveGame sid2 (Some d2) now2 iso2) in
  (sid1 = sid2 → now1 ≠ now2 →
   map_get (game_id_of now1 sid1) (games sv2) = Some (game_of p1 sid1 d1 now1 iso1)
   ∧ map_get (game_id_of now2 sid2) (games sv2) = Some (game_of p2 sid2 d2 now2 iso2))
  ∧ (now1 = now2 → slice0 6 sid1 = slice0 6 sid2 →
     map_get (game_id_of now1 sid1) (games sv2) = Some (game_of p2 sid2 d2 now2 iso2)
     ∧ length (games sv2) = length (games sv1)).
Proof.
  intros Hp1 Hp2 sv1 sv2. unfold sv2, sv1, server_step. simpl. unfold save_game.
  rewrite Hp1. simpl. rewrite Hp2. simpl. split.
  - intros <- Hne.
    assert (game_id_of now2 sid1 ≠ game_id_of now1 sid1) as Hid.
    { intros H%game_id_of_inj_time. congruence. }
    split.
    + rewrite map_get_set_ne by done. apply map_get_set_eq.
    + apply map_get_set_eq.
  - intros <- Hpre. apply (game_id_of_inj_prefix now1) in Hpre. rewrite Hpre. split.
    + apply map_get_set_eq.
    + rewrite (length_map_set (game_id_of now1 sid2)). by rewrite map_get_set_eq.
Qed.

Lemma save_game_ids_witness :
  let sv := {| core := run lobby init; games := [] |} in
  let d := {| sd_title := JsNull; sd_description := JsNull; sd_gameData := JsNull |} in
  players (core sv) !! "A" = Some player_A
  ∧ (5 ≠ 6 →
     map_get (game_id_of 5 "A")
             (games (server_step (server_step sv (EvSaveGame "A" (Some d) 5 "t5"))
                                 (EvSaveGame "A" (Some d) 6 "t6")))
     = Some (game_of player_A "A" d 5 "t5")).
Proof.
  intros sv d. split; [reflexivity|]. intros Hne.
  exact (proj1 (proj1 (save_game_ids sv "A" "A" player_A player_A d d 5 6 "t5" "t6"
                         eq_refl eq_refl) eq_refl Hne)).
Defined.

Lemma server_run_app evs1 evs2 sv :
  server_run (evs1 ++ evs2) sv = server_run evs2 (server_run evs1 sv).
Proof. unfold server_run. apply foldl_app. Qed.

Lemma server_step_games sv e k :
  is_Some (map_get k (games sv)) → is_Some (map_get k (games (server_step sv e))).
Proof.
  intros Hk. unfold server_step. destruct e as [e|sid data now iso|sid]; simpl; try done.
  unfold save_game. destruct (players (core sv) !! sid) as [p|]; [|done].
  destruct data as [d|]; [|done]. simpl.
  destruct (decide (game_id_of now sid = k)) as [->|Hne].
  - rewrite map_get_set_eq. by eexists.
  - by rewrite map_get_set_ne.
Qed.

Lemma server_step_core sv e :
  core (server_step sv e) =
    match e with EvCore e' => step (core sv) e' | _ => core sv end.
Proof.
  unfold server_step. destruct e as [e|sid data now iso|sid]; simpl; try done.
  unfold save_game. destruct (players (core sv) !! sid) as [p|]; [|done].
  by destruct data.
Qed.

Lemma server_step_keys_NoDup sv e :
  NoDup (games sv).*1 → NoDup (games (server_step sv e)).*1.
Proof.
  intros Hnd. unfold server_step. destruct e as [e|sid data now iso|sid]; simpl; try done.
  unfold save_game. destruct (players (core sv) !! sid) as [p|]; [|done].
  destruct data as [d|]; [|done]. simpl. by apply map_set_NoDup.
Qed.

Lemma server_run_core evs sv :
  core (server_run evs sv) = run (core_events evs) (core sv).
Proof.
  revert sv. induction evs as [|e evs IH]; intros sv; [done|].
  change (server_run (e :: evs) sv) with (server_run evs (server_step sv e)).
  rewrite IH, server_step_core. by destruct e.
Qed.

(** X20: the catalogue and the registries do not interfere, and the
    catalogue only grows.  After any sequence of events of the server, the
    registries are what the socket events alone make them; a game once
    stored is still stored under its id; no id is listed twice; and the
    catalogue has no more records than there were catalogue events. *)
Theorem catalogue_runs evs :
  let sv := server_run evs server_init in
  core sv = run (core_events evs) init
  ∧ NoDup (games sv).*1
  ∧ (length (games sv) ≤ length evs - length (core_events evs))%nat
  ∧ (∀ more k, is_Some (map_get k (games sv)) →
               is_Some (map_get k (games (server_run more sv)))).
Proof.
  intros sv. unfold sv.
  assert (∀ evs sv0, NoDup (games sv0).*1 → NoDup (games (server_run evs sv0)).*1) as Hnd.
  { clear. induction evs as [|e evs IH]; intros sv0 H0; [done|].
    apply IH. by apply server_step_keys_NoDup. }
  assert (∀ evs sv0, (length (games (server_run evs sv0)) + length (core_events evs)
                      ≤ length (games sv0) + length evs)%nat) as Hlen.
  { clear. induction evs as [|e evs IH]; intros sv0; [simpl; lia|].
    change (server_run (e :: evs) sv0) with (server_run evs (server_step sv0 e)).
    specialize (IH (server_step sv0 e)).
    assert (length (games (server_step sv0 e)) +
            length (core_events [e]) ≤ S (length (games sv0)))%nat as Hstep.
    { unfold server_step. destruct e as [e|sid data now iso|sid]; simpl; [lia| |lia].
      unfold save_game. destruct (players (core sv0) !! sid) as [p|]; [|simpl; lia].
      destruct data as [d|]; [|simpl; lia]. simpl. rewrite length_map_set.
      destruct (map_get _ _); lia. }
    assert (length (core_events (e :: evs))
            = (length (core_events [e]) + length (core_events evs))%nat) as ->
      by (by destruct e).
    cbn [length]. lia. }
  split_and!.
  - apply server_run_core.
  - apply Hnd. simpl. apply NoDup_nil_2.
  - specialize (Hlen evs server_init). simpl in Hlen. lia.
  - intros more. generalize (server_run evs server_init). clear.
    induction more as [|e more IH]; intros sv0 k Hk; [done|].
    apply IH. by apply server_step_games.
Qed.

Lemma catalogue_runs_witness :
  let d := {| sd_title := JsNull; sd_description := JsNull; sd_gameData := JsNull |} in
  let evs := (EvCore <$> lobby) ++ [EvSaveGame "A" (Some d) 5 "t5"] in
  is_Some (map_get (game_id_of 5 "A") (games (server_run evs server_init)))
  ∧ is_Some (map_get (game_id_of 5 "A")
               (games (server_run [EvCore (EvDisconnect "A")] (server_run evs server_init)))).
Proof.
  intros d evs.
  assert (is_Some (map_get (game_id_of 5 "A") (games (server_run evs server_init)))) as H
    by (by eexists).
  split; [exact H|].
  exact (proj2 (proj2 (proj2 (catalogue_runs evs))) [EvCore (EvDisconnect "A")] _ H).
Defined.

(* ===================================================================== *)
(** ** The status routes *)
(* ===================================================================== *)

Lemma length_omap_le {A B} (f : A → option B) (l : list A) :
  (length (omap f l) ≤ length l)%nat.
Proof.
  induction l as [|a l IH]; [done|]. cbn [omap list_omap].
  destruct (f a); simpl; lia.
Qed.

Lemma length_omap_total {A B} (f : A → option B) (l : list A) :
  (∀ a, a ∈ l → is_Some (f a)) → length (omap f l) = length l.
Proof.
  induction l as [|a l IH]; intros Hall; [done|]. cbn [omap list_omap].
  destruct (Hall a) as [b Hb]; [by left|]. rewrite Hb. simpl. f_equal.
  apply IH. intros a' Ha'. apply Hall. by right.
Qed.

(** X21: what [/rooms] shows in the state reached by any sequence of
    events.  Every room of the registry is listed, once, and only those.  A
    listed room counts at least one player; the players named are members
    of the room with an entry in [players], under their own id and current
    name, so there are at most as many as the count says.  The two agree in
    a run with no second registration while in a room and no empty room
    key. *)
Theorem rooms_route_lists_rooms evs :
  let s := run evs init in
  NoDup (ri_roomId <$> rooms_route s)
  ∧ (∀ r, r ∈ (ri_roomId <$> rooms_route s) ↔ is_Some (rooms s !! r))
  ∧ (∀ info, info ∈ rooms_route s →
       (1 ≤ playerCount info)%nat
       ∧ playerCount info = length (members s (ri_roomId info))
       ∧ (length (ri_players info) ≤ playerCount info)%nat
       ∧ (∀ name i, (name, i) ∈ ri_players info →
                    i ∈ members s (ri_roomId info)
                    ∧ ∃ p, players s !! i = Some p ∧ username p = name)
       ∧ (tidy init evs → length (ri_players info) = playerCount info)).
Proof.
  intros s. pose proof (run_Inv evs init Inv_init) as HI. fold s in HI.
  assert ((ri_roomId <$> rooms_route s) = (map_to_list (rooms s)).*1) as Hids.
  { unfold rooms_route. rewrite <- list_fmap_compose. apply list_fmap_ext.
    by intros _ [r ms] _. }
  split_and!.
  - rewrite Hids. apply NoDup_fst_map_to_list.
  - intros r. rewrite Hids, list_elem_of_fmap. split.
    + intros ([r' ms] & -> & Hin%elem_of_map_to_list). by eexists.
    + intros [ms Hms]. exists (r, ms). split; [done|]. by apply elem_of_map_to_list.
  - intros info ([r ms] & -> & Hin%elem_of_map_to_list)%list_elem_of_fmap. simpl.
    unfold members. rewrite Hin. simpl. split_and!.
    + pose proof (inv_nonempty s HI r ms Hin). destruct ms; [done|simpl; lia].
    + done.
    + rewrite length_fmap. apply length_omap_le.
    + intros name i (p & [= -> ->] & (i' & Hi' & Hp)%list_elem_of_omap)%list_elem_of_fmap.
      rewrite (inv_keys s HI i' p Hp). split; [done|]. by exists p.
    + intros Ht. rewrite length_fmap. apply length_omap_total. intros i Hi.
      assert (membership_is_room init) as HM0.
      { split; intros k; simpl; [|by rewrite lookup_empty].
        intros r0. unfold members. simpl. rewrite lookup_empty. simpl.
        by intros ?%not_elem_of_nil. }
      destruct (run_membership_is_room evs init HM0 Ht) as [Hm _]. fold s in Hm.
      destruct (Hm i r) as (p & Hp & _); [|by exists p].
      unfold members. by rewrite Hin.
Qed.

Lemma rooms_route_lists_rooms_witness :
  rooms_route (run lobby init)
  = [{| ri_roomId := "r1"; playerCount := 2;
        ri_players := [("Player_A", "A"); ("Player_B", "B")] |}]
  ∧ (tidy init lobby →
     ∀ info, info ∈ rooms_route (run lobby init) →
             length (ri_players info) = playerCount info).
Proof.
  split; [reflexivity|]. intros Ht info Hin.
  exact (proj2 (proj2 (proj2 (proj2
           (proj2 (proj2 (rooms_route_lists_rooms lobby)) info Hin)))) Ht).
Defined.

(** A member set can hold a socket that has no Player entry any more: the
    room then shows a count with nobody to name. *)
Example rooms_route_counts_a_ghost :
  rooms_route (run (reregistration ++ [EvJoinRoom "A" "r2" 3; EvDisconnect "A"]) init)
  = [{| ri_roomId := "r1"; playerCount := 1; ri_players := [] |}].
Proof. reflexivity. Qed.

Lemma size_list_to_set_le (l : list string) :
  (size (list_to_set l : gset string) ≤ length l)%nat.
Proof.
  induction l as [|a l IH]; [by rewrite list_to_set_nil, size_empty|].
  rewrite list_to_set_cons, size_union_alt, size_singleton. simpl.
  pose proof (subseteq_size (list_to_set l ∖ {[a]}) (list_to_set l : gset string)) as Hs.
  assert ((list_to_set l ∖ {[a]} : gset string) ⊆ list_to_set l) as Hsub.
  { intros k. rewrite elem_of_difference. by intros [? _]. }
  specialize (Hs Hsub). lia.
Qed.

Lemma rooms_no_more_than_players s :
  rooms_nonempty s → membership_is_room s →
  (size (rooms s) ≤ size (players s))%nat.
Proof.
  intros Hne [Hm _].
  set (L := omap (λ kp : string * Player, room kp.2) (map_to_list (players s))).
  assert (dom (rooms s) ⊆ (list_to_set L : gset string)) as Hsub.
  { intros r [ms Hms]%elem_of_dom. apply elem_of_list_to_set.
    destruct ms as [|k ms]; [by apply Hne in Hms|].
    destruct (Hm k r) as (p & Hp & Hr).
    { unfold members. rewrite Hms. by left. }
    apply list_elem_of_omap. exists (k, p). split; [|done].
    by apply elem_of_map_to_list. }
  apply subseteq_size in Hsub. rewrite size_dom in Hsub.
  pose proof (size_list_to_set_le L) as HL.
  pose proof (length_omap_le (λ kp : string * Player, room kp.2)
                (map_to_list (players s))) as HL'.
  fold L in HL'. rewrite length_map_to_list in HL'. lia.
Qed.

(** X22: the counts of [/] and [/stats] in the state reached by any
    sequence of events of the server.  [activeRooms] has one element per
    room, with the rooms and counts that [/rooms] shows, each count being at
    least one.  In a run with no second registration while in a room and no
    empty room key there are never more rooms than players. *)
Theorem stats_route_counts evs :
  let sv := server_run evs server_init in
  st_rooms (stats_route sv) = length (activeRooms (stats_route sv))
  ∧ activeRooms (stats_route sv)
    = (λ info, (ri_roomId info, playerCount info)) <$> rooms_route (core sv)
  ∧ (∀ r n, (r, n) ∈ activeRooms (stats_route sv) →
            (1 ≤ n)%nat ∧ n = length (members (core sv) r))
  ∧ (tidy init (core_events evs) →
     (st_rooms (stats_route sv) ≤ st_players (stats_route sv))%nat).
Proof.
  intros sv. pose proof (server_run_core evs server_init) as Hcore. fold sv in Hcore.
  simpl in Hcore.
  pose proof (run_Inv (core_events evs) init Inv_init) as HI. rewrite <- Hcore in HI.
  split_and!.
  - unfold stats_route. simpl. by rewrite length_fmap, length_map_to_list.
  - unfold stats_route, rooms_route. simpl. rewrite <- list_fmap_compose.
    apply list_fmap_ext. by intros _ [r ms] _.
  - intros r n ([r' ms] & [= -> ->] & Hin%elem_of_map_to_list)%list_elem_of_fmap.
    unfold members. rewrite Hin. simpl. split; [|done].
    pose proof (inv_nonempty _ HI r' ms Hin). destruct ms; [done|simpl; lia].
  - intros Ht. unfold stats_route. simpl.
    apply rooms_no_more_than_players; [apply HI|]. rewrite Hcore.
    apply run_membership_is_room; [|done].
    split; intros k; simpl; [|by rewrite lookup_empty].
    intros r0. unfold members. simpl. rewrite lookup_empty. simpl.
    by intros ?%not_elem_of_nil.
Qed.

Lemma stats_route_counts_witness :
  let evs := EvCore <$> lobby in
  tidy init (core_events evs)
  ∧ (st_rooms (stats_route (server_run evs server_init))
     ≤ st_players (stats_route (server_run evs server_init)))%nat.
Proof.
  intros evs.
  assert (tidy init (core_events evs)) as Ht.
  { simpl. split_and!; try done; intros p Hp; by vm_compute in Hp. }
  split; [exact Ht|].
  exact (proj2 (proj2 (proj2 (stats_route_counts evs))) Ht).
Defined.

(** With a ghost member the room count exceeds the player count. *)
Example stats_route_more_rooms_than_players :
  let evs := EvCore <$> (reregistration ++ [EvJoinRoom "A" "r2" 3; EvDisconnect "A"]) in
  st_rooms (stats_route (server_run evs server_init)) = 1%nat
  ∧ st_players (stats_route (server_run evs server_init)) = 0%nat.
Proof. split; reflexivity. Qed.

(* ===================================================================== *)
(** ** Whole sessions *)
(* ===================================================================== *)

Lemma drop_member_after_add (m : gmap string (list string)) (sid r : string) :
  sid ∉ default [] (m !! r) → (∀ ms, m !! r = Some ms → ms ≠ []) →
  drop_member sid r (<[r := set_add sid (default [] (m !! r))]> m) = m.
Proof.
  intros Hin Hne. unfold drop_member. rewrite lookup_insert_eq.
  rewrite (set_delete_add_fresh sid _ Hin).
  destruct (m !! r) as [ms|] eqn:Hms; simpl.
  - rewrite decide_False; last first.
    { intros Hl%length_zero_nil. by apply (Hne ms). }
    rewrite insert_insert_eq. by apply insert_id.
  - rewrite delete_insert_eq. by apply delete_id.
Qed.

(** X23: a whole session leaves no trace, for a room key other than the
    empty string.  In the state reached by any sequence of events, a socket
    with no Player entry, not listed in the member set of the room,
    registers, joins the room and disconnects: [players] is back exactly as
    it was and the socket is in no transport room; [rooms] is back exactly
    as it was when the key is not the empty string.  With the empty string
    as the key the disconnect skips the clean-up and the socket stays
    listed in that room. *)
Theorem session_leaves_no_trace evs sid pd roomId t0 t1 :
  let s := run evs init in
  players s !! sid = None → sid ∉ members s roomId →
  let s' := run [EvRegisterPlayer sid (Some pd) t0; EvJoinRoom sid roomId t1;
                 EvDisconnect sid] s in
  players s' = players s
  ∧ socket_rooms s' sid = ∅
  ∧ (roomId ≠ "" → rooms s' = rooms s)
  ∧ (roomId = "" → rooms s' = <["" := members s "" ++ [sid]]> (rooms s)).
Proof.
  intros s Hnone Hmem s'. unfold s', run. cbn [foldl].
  pose proof (inv_nonempty _ (run_Inv evs init Inv_init)) as Hne. fold s in Hne.
  remember (step s (EvRegisterPlayer sid (Some pd) t0)) as s1 eqn:Hs1.
  assert (∃ p, players s1 = <[sid := p]> (players s) ∧ room p = None
               ∧ rooms s1 = rooms s) as (p & Hp1 & Hroom & Hr1).
  { rewrite Hs1. unfold step. simpl. by eexists. }
  clear Hs1.
  assert (players s1 !! sid = Some p) as Hp by (rewrite Hp1; apply lookup_insert_eq).
  assert (current_room p = None) as Hcur by (unfold current_room; by rewrite Hroom).
  remember (step s1 (EvJoinRoom sid roomId t1)) as s2 eqn:Hs2.
  assert (players s2 = <[sid := with_room p (Some roomId) t1]> (players s1)
          ∧ rooms s2 = <[roomId := set_add sid (default [] (rooms s !! roomId))]> (rooms s))
    as [Hp2 Hr2].
  { rewrite Hs2. unfold step. simpl. rewrite (join_room_registered _ _ _ _ _ Hp). simpl.
    unfold rooms_left. by rewrite Hcur, Hr1. }
  clear Hs2.
  assert (players s2 !! sid = Some (with_room p (Some roomId) t1)) as Hp'
    by (rewrite Hp2; apply lookup_insert_eq).
  unfold step. rewrite (handle_disconnect_registered _ _ _ Hp'). simpl.
  split_and!.
  - rewrite Hp2, Hp1, !delete_insert_eq. by apply delete_id.
  - unfold socket_rooms. simpl. by rewrite lookup_delete_eq.
  - intros Hid. unfold rooms_left.
    assert (current_room (with_room p (Some roomId) t1) = Some roomId) as ->.
    { apply current_room_Some. split; [done|]. by apply truthy_nonempty. }
    rewrite Hr2. apply drop_member_after_add; [done|]. intros ms. apply Hne.
  - intros ->. unfold rooms_left.
    assert (current_room (with_room p (Some "") t1) = None) as -> by done.
    rewrite Hr2. unfold set_add. fold (members s ""). by rewrite decide_False.
Qed.

Lemma session_leaves_no_trace_witness :
  players (run lobby init) !! "C" = None
  ∧ ("C" ∉ members (run lobby init) "r1")
  ∧ rooms (run [EvRegisterPlayer "C" anon 4; EvJoinRoom "C" "r1" 5; EvDisconnect "C"]
               (run lobby init))
    = rooms (run lobby init).
Proof.
  assert ("C" ∉ members (run lobby init) "r1") as Hm.
  { assert (members (run lobby init) "r1" = ["A"; "B"]) as -> by reflexivity.
    intros [?|[?|?%not_elem_of_nil]%elem_of_cons]%elem_of_cons; done. }
  split; [reflexivity|]. split; [exact Hm|].
  refine (proj1 (proj2 (proj2 (session_leaves_no_trace lobby "C"
            {| pd_username := None; pd_avatar := None |} "r1" 4 5 eq_refl Hm))) _).
  done.
Defined.

(** The same session with the empty string as room key: the socket is gone
    from [players] and still listed in the room. *)
Example session_with_empty_key_leaves_member :
  let s := run [EvRegisterPlayer "C" anon 4; EvJoinRoom "C" "" 5; EvDisconnect "C"] init in
  players s !! "C" = None ∧ members s "" = ["C"].
Proof. split; reflexivity. Qed.

(** X24: an eviction does to the registries what a disconnect does.  When
    one player only is inactive, the tick leaves [players] and [rooms] as
    that player's disconnect would; unlike the disconnect it emits nothing
    and leaves the transport rooms alone. *)
Theorem reaper_evicts_like_disconnect s k p now :
  players s !! k = Some p → stale now p →
  (∀ k' p', k' ≠ k → players s !! k' = Some p' → ¬ stale now p') →
  registries (step s (EvReaperTick now)) = registries (step s (EvDisconnect k))
  ∧ sockets (step s (EvReaperTick now)) = sockets s
  ∧ emitted (handle s (EvReaperTick now)) = []
  ∧ emitted (handle s (EvDisconnect k)) = left_notice k p (rooms s).
Proof.
  intros Hp Hs Hothers.
  assert (step s (EvReaperTick now) = evict now s (k, p)) as Hstep.
  { unfold step. cbn [handle]. unfold reaper. cbn [state_of]. symmetry.
    rewrite <- (foldl_evict_perm now ((k, p) :: map_to_list (delete k (players s))) _ s)
      by (by apply map_to_list_delete).
    cbn [foldl]. symmetry. apply foldl_evict_all_fresh.
    intros k' p' [Hne Hp']%elem_of_map_to_list%lookup_delete_Some. by eapply Hothers. }
  rewrite Hstep, (evict_stale _ _ _ _ Hs). unfold step.
  rewrite (handle_disconnect_registered _ _ _ Hp). done.
Qed.

Lemma reaper_evicts_like_disconnect_witness :
  let s := run [EvRegisterPlayer "A" anon 0; EvJoinRoom "A" "r1" 1;
                EvRegisterPlayer "B" anon 350000; EvJoinRoom "B" "r1" 350001] init in
  players s !! "A" = Some player_A ∧ stale 400000 player_A
  ∧ registries (step s (EvReaperTick 400000)) = registries (step s (EvDisconnect "A")).
Proof.
  intros s.
  assert (stale 400000 player_A) as Hs by (unfold stale, timeout; simpl; lia).
  split; [reflexivity|]. split; [exact Hs|].
  refine (proj1 (reaper_evicts_like_disconnect s "A" player_A 400000 eq_refl Hs _)).
  intros k' p' Hne Hp'.
  destruct (decide (k' = "B")) as [->|HneB].
  - vm_compute in Hp'. injection Hp' as <-. unfold stale, timeout. simpl. lia.
  - exfalso.
    assert (players s = <["A" := player_A]> (<["B" :=
              {| id := "B"; username := "Player_B"; avatar := default_avatar;
                 x := JsFinite 50; y := JsFinite 300; room := Some "r1";
                 lastUpdate := 350001 |}]> ∅)) as Hplayers by (vm_compute; reflexivity).
    rewrite Hplayers in Hp'.
    rewrite lookup_insert_ne, lookup_insert_ne, lookup_empty in Hp' by done. done.
Defined.

Lemma player_move_numbers_clamped_witness :
  let d := mkMoveData (JsNum (JsFinite 9999)) JsUndefined in
  players (run lobby init) !! "A" = Some player_A
  ∧ current_room player_A = Some "r1"
  ∧ ∃ p', players (step (run lobby init) (EvPlayerMove "A" (Some d) 7)) !! "A" = Some p'
          ∧ in_range 750 (x p') ∧ in_range 350 (y p').
Proof.
  intros d. split; [reflexivity|]. split; [reflexivity|].
  apply (player_move_numbers_clamped (run lobby init) "A" player_A "r1" d 7
           (JsFinite 9999) (JsFinite 0));
    [reflexivity|reflexivity|reflexivity|discriminate|reflexivity|discriminate].
Defined.

Lemma player_move_stores_NaN_witness :
  let d := mkMoveData JsObject JsUndefined in
  players (run lobby init) !! "A" = Some player_A
  ∧ current_room player_A = Some "r1"
  ∧ ToBoolean (data_x d) = true ∧ ToNumber (data_x d) = Some JsNaN
  ∧ ∃ p', players (step (run lobby init) (EvPlayerMove "A" (Some d) 7)) !! "A" = Some p'
          ∧ x p' = JsNaN ∧ y p' = JsFinite 0.
Proof.
  intros d. split; [reflexivity|]. split; [reflexivity|].
  split; [reflexivity|]. split; [reflexivity|].
  exact (proj1 (player_move_stores_NaN (run lobby init) "A" player_A "r1" d 7
                  eq_refl eq_refl eq_refl eq_refl)
               (JsFinite 0) eq_refl).
Defined.
